(** * Spelling: the dictation view and its cipher game

    A shallow embedding of the [Spelling] component: its React state is a
    record, every event handler is a function from the state of the render
    it closes over to the state of the next render, and what a handler asks
    of the browser's speech engine is the list of commands it returns. *)

From Stdlib Require Import Ascii String QArith.
From stdpp Require Import gmap strings list fin_maps pretty.

Local Open Scope string_scope.
Local Open Scope list_scope.

(* stdpp's solvers clear hypotheses by name as they go *)
Set Warnings "-clear-no-such-hyp".

(** ** JavaScript values the handlers rely on *)

(** [if (s)] on a string: the empty string is falsy. *)
Definition truthy (s : string) : bool :=
  match s with
  | EmptyString => false
  | String _ _ => true
  end.

(** [if (x)] on [string | null | undefined]. *)
Definition truthy_opt (x : option string) : bool :=
  match x with
  | Some s => truthy s
  | None => false
  end.

(** [hay.includes(needle)]. *)
Fixpoint includes (needle hay : string) : bool :=
  String.prefix needle hay ||
  match hay with
  | EmptyString => false
  | String _ rest => includes needle rest
  end.

(** An uncaught exception leaves the handler before it reaches its state
    setters. *)
Inductive JsError := TypeError.

Inductive completion (A : Type) :=
  | Normal (a : A)
  | Throw (e : JsError).
Arguments Normal {A} a.
Arguments Throw {A} e.

Definition bind_completion {A B} (c : completion A) (k : A → completion B)
  : completion B :=
  match c with
  | Normal a => k a
  | Throw e => Throw e
  end.

(** ** Tiles *)

(** Modelled from the spec: the declaration of [TileData] is in the utils
    module, which is not among the sources; the spec gives a tile the
    fields text and kind, and the component reads [text] only. *)
Record TileData := { text : string; kind : string }.

Global Instance TileData_eq_dec : EqDecision TileData.
Proof. solve_decision. Defined.

(** An entry of [bankTiles].  [tile] is [cipherTiles[index]] as read when the
    tile was hidden, which is [undefined] ([None]) past the end of the
    array. *)
Record BankItem := { id : string; tile : option TileData }.

Global Instance BankItem_eq_dec : EqDecision BankItem.
Proof. solve_decision. Defined.

Inductive CheckResult := correct | incorrect.

Global Instance CheckResult_eq_dec : EqDecision CheckResult.
Proof. solve_decision. Defined.

(** ** Playback controller *)

Record SpeechSynthesisVoice :=
  { name : string; lang : string; voiceURI : string }.

Global Instance SpeechSynthesisVoice_eq_dec : EqDecision SpeechSynthesisVoice.
Proof. solve_decision. Defined.

(** The part of the component state the playback code reads and writes. *)
Record Playback := {
  voices : list SpeechSynthesisVoice;
  selectedVoiceURI : string;
  isSlow : bool;
  playingId : option string
}.

Definition setVoices (vs : list SpeechSynthesisVoice) (p : Playback) : Playback :=
  {| voices := vs; selectedVoiceURI := selectedVoiceURI p;
     isSlow := isSlow p; playingId := playingId p |}.

Definition setSelectedVoiceURI (uri : string) (p : Playback) : Playback :=
  {| voices := voices p; selectedVoiceURI := uri;
     isSlow := isSlow p; playingId := playingId p |}.

Definition setPlayingId (v : option string) (p : Playback) : Playback :=
  {| voices := voices p; selectedVoiceURI := selectedVoiceURI p;
     isSlow := isSlow p; playingId := v |}.

(** The closures [speakWord] hangs on an utterance: each one is a call of
    [setPlayingId] with a fixed argument. *)
Inductive Callback := CallSetPlayingId (v : option string).

(** The fields of an utterance that [speakWord] sets.  [rate] holds the
    literal 0.5 or 0.9 as a fraction; nothing is computed from it. *)
Record SpeechSynthesisUtterance := {
  utterance_text : string;
  voice : option SpeechSynthesisVoice;
  rate : Q;
  onstart : option Callback;
  onend : option Callback;
  onerror : option Callback
}.

(** What a handler asks of [window.speechSynthesis], in call order. *)
Inductive SpeechCommand :=
  | cancel
  | speak (u : SpeechSynthesisUtterance).

(** The lifecycle events the engine reports on an utterance. *)
Inductive SpeechEvent := started | ended | errored.

Definition callback_for (u : SpeechSynthesisUtterance) (e : SpeechEvent)
  : option Callback :=
  match e with
  | started => onstart u
  | ended => onend u
  | errored => onerror u
  end.

Definition run_callback (c : option Callback) (p : Playback) : Playback :=
  match c with
  | Some (CallSetPlayingId v) => setPlayingId v p
  | None => p
  end.

(** The engine fires event [e] on utterance [u]. *)
Definition dispatch (u : SpeechSynthesisUtterance) (e : SpeechEvent)
  (p : Playback) : Playback :=
  run_callback (callback_for u e) p.

(** The character class of [/[/\\{}[\]-]/g]. *)
Definition markup : list ascii := ["/"; "\"; "{"; "}"; "["; "]"; "-"]%char.

Definition is_markup (c : ascii) : bool := bool_decide (c ∈ markup).

(** [text.replace(/[/\\{}[\]-]/g, '')]: every match is replaced by the empty
    string, scanning from the left. *)
Fixpoint cleanText (text : string) : string :=
  match text with
  | EmptyString => EmptyString
  | String c rest =>
      if is_markup c then cleanText rest else String c (cleanText rest)
  end.

(** [a || b] on values that are an object or [undefined]. *)
Definition or_else {A} (a b : option A) : option A :=
  match a with
  | Some _ => a
  | None => b
  end.

Definition speakWord (p : Playback) (text : string) (id : option string)
  : list SpeechCommand :=
  let chosen :=
    if truthy (selectedVoiceURI p)
    then List.find (λ v, bool_decide (voiceURI v = selectedVoiceURI p)) (voices p)
    else None in
  let attach (v : option string) :=
    if truthy_opt id then Some (CallSetPlayingId v) else None in
  [ cancel;
    speak {| utterance_text := cleanText text;
             voice := chosen;
             rate := if isSlow p then 0.5%Q else 0.9%Q;
             onstart := attach id;
             onend := attach None;
             onerror := attach None |} ].

(** The choice of [best] in [loadVoices], on the list as [sort] left it. *)
Definition bestVoice (vs : list SpeechSynthesisVoice)
  : option SpeechSynthesisVoice :=
  or_else (List.find (λ v, includes "Google US English" (name v)) vs)
    (or_else (List.find (λ v, includes "Natural" (name v)) vs)
       (or_else (List.find (λ v, bool_decide (lang v = "en-US")) vs)
          (head vs))).

(** [loadVoices].  [available] is what [getVoices()] returns.  The comparator
    given to [sort] looks at its first argument only, so it is not a
    consistent comparator and the order [sort] leaves is up to the engine:
    [sortVoices] stands for it, and the theorems ask of it only that it
    permutes its argument. *)
Definition loadVoices
  (sortVoices : list SpeechSynthesisVoice → list SpeechSynthesisVoice)
  (available : list SpeechSynthesisVoice) (p : Playback) : Playback :=
  let vs := sortVoices available in
  let p' := setVoices vs p in
  if negb (truthy (selectedVoiceURI p)) && bool_decide (0 < length vs)
  then match bestVoice vs with
       | Some best => setSelectedVoiceURI (voiceURI best) p'
       | None => p'
       end
  else p'.

(** The three tests of [loadVoices], on one voice. *)
Definition named_google (v : SpeechSynthesisVoice) : Prop :=
  includes "Google US English" (name v) = true.

Definition named_natural (v : SpeechSynthesisVoice) : Prop :=
  includes "Natural" (name v) = true.

Definition us_english (v : SpeechSynthesisVoice) : Prop := lang v = "en-US".

(** [best] is what the preference order of [loadVoices] picks among the
    voices [vs], [first] being the voice at the head of the sorted list: a
    voice named Google US English; if there is none, a voice named Natural;
    if there is none, a voice of language en-US; if there is none, [first]. *)
Definition preferred (vs : list SpeechSynthesisVoice)
  (first : option SpeechSynthesisVoice) (best : SpeechSynthesisVoice) : Prop :=
  named_google best
  ∨ ((∀ v, v ∈ vs → ¬ named_google v)
     ∧ (named_natural best
        ∨ ((∀ v, v ∈ vs → ¬ named_natural v)
           ∧ (us_english best
              ∨ ((∀ v, v ∈ vs → ¬ us_english v) ∧ first = Some best))))).

(** ** Reveal tracker *)

Definition toggleReveal (id : string) (revealedIds : gset string) : gset string :=
  if decide (id ∈ revealedIds)
  then revealedIds ∖ {[id]}
  else {[id]} ∪ revealedIds.

(** ** Cipher game *)

(** The cipher-game part of the component state.  Indices are positions of
    [cipherTiles]; [draggedTiles] is the object used as a map from index to
    tile, a key of which can hold [undefined] ([Some None]) when the bank
    entry placed there carried no tile. *)
Record Cipher := {
  cipherWord : option string;
  cipherTiles : list TileData;
  hiddenIndices : gset nat;
  draggedTiles : gmap nat (option TileData);
  bankTiles : list BankItem;
  checkResult : option CheckResult;
  selectedBankTile : option string
}.

Definition setCipherWord (w : option string) (s : Cipher) : Cipher :=
  {| cipherWord := w; cipherTiles := cipherTiles s;
     hiddenIndices := hiddenIndices s; draggedTiles := draggedTiles s;
     bankTiles := bankTiles s; checkResult := checkResult s;
     selectedBankTile := selectedBankTile s |}.

Definition setCipherTiles (ts : list TileData) (s : Cipher) : Cipher :=
  {| cipherWord := cipherWord s; cipherTiles := ts;
     hiddenIndices := hiddenIndices s; draggedTiles := draggedTiles s;
     bankTiles := bankTiles s; checkResult := checkResult s;
     selectedBankTile := selectedBankTile s |}.

Definition setHiddenIndices (h : gset nat) (s : Cipher) : Cipher :=
  {| cipherWord := cipherWord s; cipherTiles := cipherTiles s;
     hiddenIndices := h; draggedTiles := draggedTiles s;
     bankTiles := bankTiles s; checkResult := checkResult s;
     selectedBankTile := selectedBankTile s |}.

Definition setDraggedTiles (d : gmap nat (option TileData)) (s : Cipher) : Cipher :=
  {| cipherWord := cipherWord s; cipherTiles := cipherTiles s;
     hiddenIndices := hiddenIndices s; draggedTiles := d;
     bankTiles := bankTiles s; checkResult := checkResult s;
     selectedBankTile := selectedBankTile s |}.

Definition setBankTiles (b : list BankItem) (s : Cipher) : Cipher :=
  {| cipherWord := cipherWord s; cipherTiles := cipherTiles s;
     hiddenIndices := hiddenIndices s; draggedTiles := draggedTiles s;
     bankTiles := b; checkResult := checkResult s;
     selectedBankTile := selectedBankTile s |}.

Definition setCheckResult (r : option CheckResult) (s : Cipher) : Cipher :=
  {| cipherWord := cipherWord s; cipherTiles := cipherTiles s;
     hiddenIndices := hiddenIndices s; draggedTiles := draggedTiles s;
     bankTiles := bankTiles s; checkResult := r;
     selectedBankTile := selectedBankTile s |}.

Definition setSelectedBankTile (b : option string) (s : Cipher) : Cipher :=
  {| cipherWord := cipherWord s; cipherTiles := cipherTiles s;
     hiddenIndices := hiddenIndices s; draggedTiles := draggedTiles s;
     bankTiles := bankTiles s; checkResult := checkResult s;
     selectedBankTile := b |}.

(** The state of the first render. *)
Definition initialCipher : Cipher :=
  {| cipherWord := None; cipherTiles := []; hiddenIndices := ∅;
     draggedTiles := ∅; bankTiles := []; checkResult := None;
     selectedBankTile := None |}.

(** A handler's setter calls, applied in the order the handler makes them. *)
Local Notation "s ▷ f" := (f s) (at level 45, left associativity, only parsing).

(** [`bank-${index}`] and [`bank-returned-${Date.now()}`]. *)
Definition bankId (index : nat) : string := "bank-" +:+ pretty index.
Definition returnedId (now : N) : string := "bank-returned-" +:+ pretty now.

(** [initCipherGame]; [parseWordToTiles] is imported from the utils module. *)
Definition initCipherGame (parseWordToTiles : string → list TileData)
  (word : string) (s : Cipher) : Cipher :=
  s ▷ setCipherWord (Some word)
    ▷ setCipherTiles (parseWordToTiles word)
    ▷ setHiddenIndices ∅
    ▷ setDraggedTiles ∅
    ▷ setBankTiles []
    ▷ setCheckResult None.

(** [toggleTileHidden].  [shuffle] is what [sort(() => Math.random() - 0.5)]
    does to the bank in this call: some reordering of it. *)
Definition toggleTileHidden (shuffle : list BankItem → list BankItem)
  (index : nat) (s : Cipher) : Cipher :=
  let tile := cipherTiles s !! index in
  if decide (index ∈ hiddenIndices s) then
    s ▷ setBankTiles (filter (λ t, id t ≠ bankId index) (bankTiles s))
      ▷ setDraggedTiles (delete index (draggedTiles s))
      ▷ setHiddenIndices (hiddenIndices s ∖ {[index]})
      ▷ setCheckResult None
  else
    s ▷ setBankTiles
          (shuffle (bankTiles s ++ [ {| id := bankId index; tile := tile |} ]))
      ▷ setHiddenIndices ({[index]} ∪ hiddenIndices s)
      ▷ setCheckResult None.

Definition handleBankTileClick (bankId : string) (s : Cipher) : Cipher :=
  s ▷ setSelectedBankTile
        (if decide (selectedBankTile s = Some bankId) then None else Some bankId).

(** [handleSlotClick]; [now] is the value of [Date.now()] in this call. *)
Definition handleSlotClick (now : N) (index : nat) (s : Cipher) : Cipher :=
  if decide (index ∈ hiddenIndices s) then
    match selectedBankTile s with
    | Some selected =>
        if truthy selected then
          match List.find (λ b, bool_decide (id b = selected)) (bankTiles s) with
          | Some bankItem =>
              s ▷ setDraggedTiles (<[index := tile bankItem]> (draggedTiles s))
                ▷ setBankTiles (filter (λ b, id b ≠ selected) (bankTiles s))
                ▷ setSelectedBankTile None
                ▷ setCheckResult None
          | None => s
          end
        else
          match draggedTiles s !! index with
          | Some (Some tileToRemove) =>
              s ▷ setDraggedTiles (delete index (draggedTiles s))
                ▷ setBankTiles
                    (bankTiles s ++
                       [ {| id := returnedId now; tile := Some tileToRemove |} ])
                ▷ setCheckResult None
          | _ => s
          end
    | None =>
        match draggedTiles s !! index with
        | Some (Some tileToRemove) =>
            s ▷ setDraggedTiles (delete index (draggedTiles s))
              ▷ setBankTiles
                  (bankTiles s ++
                     [ {| id := returnedId now; tile := Some tileToRemove |} ])
              ▷ setCheckResult None
        | _ => s
        end
    end
  else s.

(** [arr.forEach] / [set.forEach] with a callback that can throw. *)
Fixpoint forEach {A S} (f : A → S → completion S) (l : list A) (acc : S)
  : completion S :=
  match l with
  | [] => Normal acc
  | x :: rest => bind_completion (f x acc) (forEach f rest)
  end.

(** The body of the [forEach] callback of [checkCipherAnswer], on the local
    [correct].  Reading [.text] of [undefined] throws a TypeError. *)
Definition compareSlot (s : Cipher) (idx : nat) (all_match : bool)
  : completion bool :=
  match draggedTiles s !! idx with
  | Some (Some placed) =>
      match cipherTiles s !! idx with
      | Some original =>
          Normal (if bool_decide (text placed ≠ text original)
                  then false else all_match)
      | None => Throw TypeError
      end
  | _ => Throw TypeError
  end.

(** [checkCipherAnswer]: the next cipher state and the speech commands sent,
    or the exception that ended the handler.  The walk over [hiddenIndices]
    visits every index whatever has been found so far, so which order the
    set is walked in does not change the outcome. *)
Definition checkCipherAnswer (p : Playback) (s : Cipher)
  : completion (Cipher * list SpeechCommand) :=
  if bool_decide (size (draggedTiles s) ≠ size (hiddenIndices s)) then
    Normal (s, [])
  else
    bind_completion
      (forEach (compareSlot s) (elements (hiddenIndices s)) true)
      (λ all_match,
         Normal
           (s ▷ setCheckResult (Some (if all_match then correct else incorrect)),
            match cipherWord s with
            | Some word =>
                if all_match && truthy word
                then speakWord p ("Correct! " +:+ word) None
                else speakWord p "Try again." None
            | None => speakWord p "Try again." None
            end)).

(** *** The game as a transition system *)

(** What can happen to the cipher state between two renders.  A shuffle and
    a clock reading come with the event that uses them; [Check] carries the
    playback state its speech is built from. *)
Inductive Event :=
  | LoadWord (word : string)
  | ToggleTile (shuffle : list BankItem → list BankItem) (index : nat)
  | BankTileClick (bankId : string)
  | SlotClick (now : N) (index : nat)
  | Check (p : Playback)
  | Close.

Section Game.
(** [parseWordToTiles] of the utils module: some function from words to
    tiles. *)
Variable parseWordToTiles : string → list TileData.

Definition step (e : Event) (s : Cipher) : Cipher :=
  match e with
  | LoadWord word => initCipherGame parseWordToTiles word s
  | ToggleTile shuffle index => toggleTileHidden shuffle index s
  | BankTileClick bankId => handleBankTileClick bankId s
  | SlotClick now index => handleSlotClick now index s
  | Check p =>
      match checkCipherAnswer p s with
      | Normal (s', _) => s'
      | Throw _ => s
      end
  | Close => setCipherWord None s
  end.

(** Every event may occur: a shuffle reorders the bank, nothing more. *)
Definition may_occur (s : Cipher) (e : Event) : Prop :=
  match e with
  | ToggleTile shuffle _ => ∀ l, shuffle l ≡ₚ l
  | _ => True
  end.

(** The events of a game in which only positions of [cipherTiles] are
    hidden or unhidden. *)
Definition on_tiles (s : Cipher) (e : Event) : Prop :=
  match e with
  | ToggleTile shuffle index =>
      (∀ l, shuffle l ≡ₚ l) ∧ index < length (cipherTiles s)
  | _ => True
  end.

Inductive reachable_by (allowed : Cipher → Event → Prop) : Cipher → Prop :=
  | reachable_initial : reachable_by allowed initialCipher
  | reachable_step s e :
      reachable_by allowed s → allowed s e → reachable_by allowed (step e s).

Definition reachable : Cipher → Prop := reachable_by may_occur.
Definition reachable_on_tiles : Cipher → Prop := reachable_by on_tiles.
End Game.

(** *** Properties of a cipher state *)

(** Every hidden index has a key in [draggedTiles]. *)
Definition covers (s : Cipher) : Prop :=
  ∀ i, i ∈ hiddenIndices s → is_Some (draggedTiles s !! i).

(** The tile placed at [idx] carries the text of the original tile there. *)
Definition slot_matches (s : Cipher) (idx : nat) : bool :=
  match draggedTiles s !! idx, cipherTiles s !! idx with
  | Some (Some placed), Some original => bool_decide (text placed = text original)
  | _, _ => false
  end.

Definition all_slots_match (s : Cipher) : bool :=
  forallb (slot_matches s) (elements (hiddenIndices s)).

(** What the game keeps true between events when only positions of the word
    are hidden. *)
Record well_formed (s : Cipher) : Prop := {
  wf_placed_hidden : dom (draggedTiles s) ⊆ hiddenIndices s;
  wf_hidden_tiles : ∀ i, i ∈ hiddenIndices s → i < length (cipherTiles s);
  wf_bank_defined : ∀ b, b ∈ bankTiles s → is_Some (tile b);
  wf_placed_defined : ∀ i v, draggedTiles s !! i = Some v → is_Some v;
  wf_result : checkResult s ≠ None →
              size (draggedTiles s) = size (hiddenIndices s)
}.

(** Tile [t] lies in the bank, or is placed on some slot. *)
Definition in_bank (t : TileData) (s : Cipher) : Prop :=
  Some t ∈ (tile <$> bankTiles s).

Definition is_placed (t : TileData) (s : Cipher) : Prop :=
  Some t ∈ (map_to_list (draggedTiles s)).*2.

(** The tile of position [i] is in exactly one of the bank and the slots. *)
Definition tile_kept (s : Cipher) (i : nat) : Prop :=
  match cipherTiles s !! i with
  | Some t => (in_bank t s ∧ ¬ is_placed t s) ∨ (¬ in_bank t s ∧ is_placed t s)
  | None => True
  end.

(** The spec's invariant: every hidden index has its tile in exactly one of
    the bank and the placements.  Tiles are told apart by what they hold,
    which tells them apart in a word whose tiles are pairwise different. *)
Definition hidden_tiles_kept (s : Cipher) : Prop :=
  set_Forall (tile_kept s) (hiddenIndices s).

Global Instance in_bank_dec t s : Decision (in_bank t s).
Proof. unfold in_bank. apply _. Defined.

Global Instance is_placed_dec t s : Decision (is_placed t s).
Proof. unfold is_placed. apply _. Defined.

Global Instance tile_kept_dec s i : Decision (tile_kept s i).
Proof. unfold tile_kept. destruct (cipherTiles s !! i); apply _. Defined.

Global Instance hidden_tiles_kept_dec s : Decision (hidden_tiles_kept s).
Proof. unfold hidden_tiles_kept. apply _. Defined.

(** The tiles in play, with repetition: those in the bank and those placed;
    and the tiles of the hidden indices.  The game conserves its tiles when
    the first list is the second reordered. *)
Definition pool (s : Cipher) : list (option TileData) :=
  (tile <$> bankTiles s) ++ (map_to_list (draggedTiles s)).*2.

Definition hidden_tiles (s : Cipher) : list (option TileData) :=
  (λ i, cipherTiles s !! i) <$> elements (hiddenIndices s).

Definition conserved (s : Cipher) : Prop := pool s ≡ₚ hidden_tiles s.

(** ** Section catalog and its list *)

(** Modelled from the spec: the declaration of [DictationSection] is in the
    types module, which is not among the sources; the spec describes a data
    object supplying six named lists of strings, any of which can be
    absent. *)
Record DictationSection := {
  sounds : option (list string);
  realWords : option (list string);
  wordElements : option (list string);
  nonsenseWords : option (list string);
  phrases : option (list string);
  sentences : option (list string)
}.

(** An entry of [sections], without its icon. *)
Record SectionEntry := { title : string; count : nat; data : list string }.

Definition sections (d : DictationSection) : list SectionEntry :=
  [ {| title := "Sounds"; count := 5; data := default [] (sounds d) |};
    {| title := "Real Words"; count := 5; data := default [] (realWords d) |};
    {| title := "Word Elements"; count := 5; data := default [] (wordElements d) |};
    {| title := "Nonsense Words"; count := 3; data := default [] (nonsenseWords d) |};
    {| title := "Phrases"; count := 3; data := default [] (phrases d) |};
    {| title := "Sentences"; count := 3; data := default [] (sentences d) |} ].

(** The children of the list container: the notice shown for an empty
    section; for every item a card (in game mode) or a numbered row; the
    numbered empty slots. *)
Inductive Child :=
  | NoItemsNotice (title : string)
  | LoadCipherCard (key text : string)
  | ItemRow (key : string) (number : nat) (text : string)
      (isRevealed isPlaying : bool)
  | EmptySlot (key : string) (number : nat).

Definition is_item (c : Child) : bool :=
  match c with
  | LoadCipherCard _ _ | ItemRow _ _ _ _ _ => true
  | _ => false
  end.

Definition is_empty_slot (c : Child) : bool :=
  match c with
  | EmptySlot _ _ => true
  | _ => false
  end.

(** The rows of the list are its items and its empty slots. *)
Definition is_row (c : Child) : bool := is_item c || is_empty_slot c.

Definition row_text (c : Child) : option string :=
  match c with
  | LoadCipherCard _ text | ItemRow _ _ text _ _ => Some text
  | _ => None
  end.

Definition slot_number (c : Child) : option nat :=
  match c with
  | EmptySlot _ number => Some number
  | _ => None
  end.

Definition count_if (f : Child → bool) (l : list Child) : nat :=
  length (List.filter f l).

(** The view state the list is drawn from. *)
Record ListView := {
  activeTab : nat;
  gameMode : bool;
  revealedIds : gset string;
  nowPlaying : option string
}.

(** The callback of [currentSection.data.map]. *)
Definition renderItem (v : ListView) (idx : nat) (text : string) : Child :=
  let uniqueId := pretty (activeTab v) +:+ "-" +:+ pretty idx in
  if gameMode v then LoadCipherCard uniqueId text
  else ItemRow uniqueId (idx + 1) text
         (bool_decide (uniqueId ∈ revealedIds v))
         (bool_decide (nowPlaying v = Some uniqueId)).

(** The children of the list container, in document order. *)
Definition renderList (v : ListView) (currentSection : SectionEntry)
  : list Child :=
  let items := data currentSection in
  (if bool_decide (length items = 0)
   then [ NoItemsNotice (title currentSection) ]
   else imap (renderItem v) items)
  ++ ((λ idx, EmptySlot ("empty-" +:+ pretty idx) (length items + idx + 1))
        <$> seq 0 (Z.to_nat
                     (Z.max 0 (Z.of_nat (count currentSection)
                               - Z.of_nat (length items))))).

(** At every hidden index a tile is placed that carries the text of the
    original tile. *)
Definition texts_agree (s : Cipher) : Prop :=
  ∀ i, i ∈ hiddenIndices s →
    ∃ placed original,
      draggedTiles s !! i = Some (Some placed)
      ∧ cipherTiles s !! i = Some original
      ∧ text placed = text original.

(** What the spec says of [check()] in state [s]: nothing happens, and the
    result stays none, unless the placements cover the hidden indices; when
    they do, the result becomes correct if the texts agree and incorrect if
    they do not. *)
Definition check_as_specified (p : Playback) (s : Cipher) : Prop :=
  (¬ covers s → checkCipherAnswer p s = Normal (s, []) ∧ checkResult s = None)
  ∧ (covers s →
     ∃ cmds,
       (texts_agree s
        ∧ checkCipherAnswer p s
          = Normal (setCheckResult (Some correct) s, cmds))
       ∨ (¬ texts_agree s
          ∧ checkCipherAnswer p s
            = Normal (setCheckResult (Some incorrect) s, cmds))).

(** A command that leaves no closure over [setPlayingId] with the engine. *)
Definition silent (c : SpeechCommand) : Prop :=
  match c with
  | cancel => True
  | speak u => onstart u = None ∧ onend u = None ∧ onerror u = None
  end.

(** ** Sample data *)

Definition tile_c : TileData := {| text := "c"; kind := "consonant" |}.
Definition tile_a : TileData := {| text := "a"; kind := "vowel" |}.

(** A decomposition into one tile per letter, enough for the word "cat". *)
Definition letter_kind (c : ascii) : string :=
  if bool_decide (c ∈ ["a"; "e"; "i"; "o"; "u"]%char) then "vowel" else "consonant".

Fixpoint letters (w : string) : list TileData :=
  match w with
  | EmptyString => []
  | String c rest =>
      {| text := String c EmptyString; kind := letter_kind c |} :: letters rest
  end.

(** The bank left in the order it was built. *)
Definition keep_order (l : list BankItem) : list BankItem := l.

Definition quiet : Playback :=
  {| voices := []; selectedVoiceURI := ""; isSlow := false; playingId := None |}.

(** "cat" loaded. *)
Definition cat_loaded : Cipher := initCipherGame letters "cat" initialCipher.

(** The spec's scenario: "cat", tile 1 hidden, its bank tile selected and
    placed on slot 1. *)
Definition cat_solved : Cipher :=
  step letters (SlotClick 0 1)
    (step letters (BankTileClick "bank-1")
       (step letters (ToggleTile keep_order 1)
          (step letters (LoadWord "cat") initialCipher))).

(** A state with a placement on slot 1, which is not hidden. *)
Definition overfull : Cipher :=
  {| cipherWord := Some "cat"; cipherTiles := letters "cat";
     hiddenIndices := {[ 0 ]};
     draggedTiles := {[ 0 := Some tile_c; 1 := Some tile_a ]};
     bankTiles := []; checkResult := None; selectedBankTile := None |}.

(** "cat" has tiles 0 to 2: position 3 is hidden, and the bank entry made
    for it, which carries no tile, is placed on slot 3. *)
Definition past_end : Cipher :=
  step letters (SlotClick 0 3)
    (step letters (BankTileClick "bank-3")
       (step letters (ToggleTile keep_order 3)
          (step letters (LoadWord "cat") initialCipher))).

(** "cat" with tiles 0 and 1 hidden, the tile of 0 placed on slot 1, and the
    bank tile of 1 selected. *)
Definition cat_c_on_slot_1 : Cipher :=
  step letters (BankTileClick "bank-1")
    (step letters (SlotClick 0 1)
       (step letters (BankTileClick "bank-0")
          (step letters (ToggleTile keep_order 1)
             (step letters (ToggleTile keep_order 0)
                (step letters (LoadWord "cat") initialCipher))))).

(** The filled slot 1 is tapped. *)
Definition cat_c_lost : Cipher := step letters (SlotClick 0 1) cat_c_on_slot_1.

(** Tiles 0 and 1 hidden and the tile of 0 placed on slot 1, then tile 1
    unhidden. *)
Definition cat_c_unhidden_away : Cipher :=
  step letters (ToggleTile keep_order 1)
    (step letters (SlotClick 0 1)
       (step letters (BankTileClick "bank-0")
          (step letters (ToggleTile keep_order 1)
             (step letters (ToggleTile keep_order 0)
                (step letters (LoadWord "cat") initialCipher))))).

(** Two voices: one of language en-US, one British and named Natural. *)
Definition samantha : SpeechSynthesisVoice :=
  {| name := "Samantha"; lang := "en-US";
     voiceURI := "com.apple.voice.compact.en-US.Samantha" |}.

Definition sonia : SpeechSynthesisVoice :=
  {| name := "Microsoft Sonia Online (Natural) - English (United Kingdom)";
     lang := "en-GB";
     voiceURI := "Microsoft Sonia Online (Natural) - English (United Kingdom)" |}.

(** A view in standard mode, and a section given two of its five items. *)
Definition plain_view : ListView :=
  {| activeTab := 0; gameMode := false; revealedIds := ∅; nowPlaying := None |}.

Definition two_sounds : SectionEntry :=
  {| title := "Sounds"; count := 5; data := ["sh"; "ch"] |}.

(** ** The overlay of the cipher game *)

(** The condition under which the bank area shows the Check Answer button
    in place of the bank tiles. *)
Definition checkButtonShown (s : Cipher) : bool :=
  bool_decide (length (bankTiles s) = 0)
  && bool_decide (size (draggedTiles s) = size (hiddenIndices s)).

(** What the player hears after a check that gave verdict [r] on [word]. *)
Definition feedback (r : CheckResult) (word : option string) : string :=
  match r, word with
  | correct, Some w =>
      if truthy w then "Correct! " +:+ cleanText w else "Try again."
  | _, _ => "Try again."
  end.

(** A verdict is on display only for the placements it was given for. *)
Definition verdict_current (s : Cipher) : Prop :=
  ∀ r, checkResult s = Some r →
    size (draggedTiles s) = size (hiddenIndices s)
    ∧ forEach (compareSlot s) (elements (hiddenIndices s)) true
      = Normal (bool_decide (r = correct)).

(** Play that hides tiles without unhiding any, places bank tiles on empty
    slots only, and returns a tile at a clock reading no returned entry of
    the bank was made at. *)
Definition careful (s : Cipher) (e : Event) : Prop :=
  match e with
  | ToggleTile shuffle index =>
      (∀ l, shuffle l ≡ₚ l) ∧ index ∉ hiddenIndices s
  | SlotClick now index =>
      (truthy_opt (selectedBankTile s) = true →
       draggedTiles s !! index = None)
      ∧ returnedId now ∉ (id <$> bankTiles s)
  | _ => True
  end.

(** What careful play keeps: the tiles in play are the tiles of the hidden
    indices, no two bank entries share an identifier, and an entry made for
    index [j] is in the bank only while [j] is hidden. *)
Record tidy (s : Cipher) : Prop := {
  tidy_conserved : conserved s;
  tidy_ids : NoDup (id <$> bankTiles s);
  tidy_hidden : ∀ j, bankId j ∈ (id <$> bankTiles s) → j ∈ hiddenIndices s
}.

(** The events the rendered view delivers.  [initCipherGame] is the click
    handler of a list row in game mode, [handleSlotClick] of a hidden slot,
    [handleBankTileClick] of a bank tile, [checkCipherAnswer] of the Check
    Answer button, and [setCipherWord(null)] is what the close and the reset
    buttons do to the game.  [toggleTileHidden] is the handler of no element,
    and a tile that is not hidden takes no pointer events.  The handlers
    that are attached are taken with any argument. *)
Definition in_view (s : Cipher) (e : Event) : Prop :=
  match e with
  | ToggleTile _ _ => False
  | _ => True
  end.

(** ** Annotation overlay *)

(** ['cursor' | 'pen-blue' | 'pen-red']. *)
Inductive Tool := cursor | pen_blue | pen_red.

Global Instance Tool_eq_dec : EqDecision Tool.
Proof. solve_decision. Defined.

(** What the drawing handlers call on the 2d context, in call order.
    Coordinates are JavaScript numbers: [number] stands for them and [minus]
    for their subtraction. *)
Inductive CanvasCommand (number : Type) :=
  | beginPath
  | moveTo (x y : number)
  | setLineWidth (w : nat)
  | setLineCap (cap : string)
  | setLineJoin (join : string)
  | setStrokeStyle (colour : string)
  | lineTo (x y : number)
  | stroke
  | clearRect (x y w h : nat).
Arguments beginPath {number}.
Arguments moveTo {number} x y.
Arguments setLineWidth {number} w.
Arguments setLineCap {number} cap.
Arguments setLineJoin {number} join.
Arguments setStrokeStyle {number} colour.
Arguments lineTo {number} x y.
Arguments stroke {number}.
Arguments clearRect {number} x y w h.

(** What the handlers read of the canvas element: the corner of
    [getBoundingClientRect()], the size, and whether [getContext('2d')]
    gives a context. *)
Record Canvas (number : Type) := {
  rect_left : number;
  rect_top : number;
  canvas_width : nat;
  canvas_height : nat;
  context2d : bool
}.
Arguments rect_left {number} c.
Arguments rect_top {number} c.
Arguments canvas_width {number} c.
Arguments canvas_height {number} c.
Arguments context2d {number} c.

(** A mouse event with its client position, or a touch event with the
    client positions of its touches. *)
Inductive PointerEvent (number : Type) :=
  | MouseEvent (clientX clientY : number)
  | TouchEvent (touches : list (number * number)).
Arguments MouseEvent {number} clientX clientY.
Arguments TouchEvent {number} touches.

(** The drawing part of the component state. *)
Record Drawing := { tool : Tool; isDrawing : bool }.

Definition setTool (t : Tool) (d : Drawing) : Drawing :=
  {| tool := t; isDrawing := isDrawing d |}.

Definition setIsDrawing (b : bool) (d : Drawing) : Drawing :=
  {| tool := tool d; isDrawing := b |}.

(** What happens on the canvas between two renders. *)
Inductive DrawEvent (number : Type) :=
  | PointerDown (e : PointerEvent number)
  | PointerMove (e : PointerEvent number)
  | PointerUp
  | PickTool (t : Tool)
  | ClearMarkings.
Arguments PointerDown {number} e.
Arguments PointerMove {number} e.
Arguments PointerUp {number}.
Arguments PickTool {number} t.
Arguments ClearMarkings {number}.

Section Drawing.
Variable number : Type.
Variable minus : number → number → number.
Variable zero : number.

(** [clearCanvas]; [canvas] is [canvasRef.current]. *)
Definition clearCanvas (canvas : option (Canvas number))
  : list (CanvasCommand number) :=
  match canvas with
  | Some c =>
      if context2d c
      then [ clearRect 0 0 (canvas_width c) (canvas_height c) ]
      else []
  | None => []
  end.

(** [getCoordinates]: without a canvas the origin; else the position of the
    mouse, or of the first touch, relative to the canvas.  Reading
    [clientX] of a first touch that is not there throws. *)
Definition getCoordinates (canvas : option (Canvas number))
  (e : PointerEvent number) : completion (number * number) :=
  match canvas with
  | None => Normal (zero, zero)
  | Some c =>
      match e with
      | MouseEvent clientX clientY =>
          Normal (minus clientX (rect_left c), minus clientY (rect_top c))
      | TouchEvent ((clientX, clientY) :: _) =>
          Normal (minus clientX (rect_left c), minus clientY (rect_top c))
      | TouchEvent [] => Throw TypeError
      end
  end.

(** The commands of a handler reach the context when there is one. *)
Definition on_context (canvas : option (Canvas number))
  (cmds : list (CanvasCommand number)) : list (CanvasCommand number) :=
  match canvas with
  | Some c => if context2d c then cmds else []
  | None => []
  end.

(** [startDrawing].  When [getCoordinates] throws, [setIsDrawing(true)] has
    been called already; what becomes of that update is not modelled. *)
Definition startDrawing (canvas : option (Canvas number))
  (e : PointerEvent number) (d : Drawing)
  : completion (Drawing * list (CanvasCommand number)) :=
  if decide (tool d = cursor) then Normal (d, [])
  else
    bind_completion (getCoordinates canvas e)
      (λ '(x, y),
         Normal
           (setIsDrawing true d,
            on_context canvas
              [ beginPath; moveTo x y; setLineWidth 4; setLineCap "round";
                setLineJoin "round";
                setStrokeStyle
                  (if decide (tool d = pen_blue) then "#4338ca" else "#b91c1c") ])).

(** [draw]. *)
Definition draw (canvas : option (Canvas number))
  (e : PointerEvent number) (d : Drawing)
  : completion (Drawing * list (CanvasCommand number)) :=
  if negb (isDrawing d) || bool_decide (tool d = cursor) then Normal (d, [])
  else
    bind_completion (getCoordinates canvas e)
      (λ '(x, y), Normal (d, on_context canvas [ lineTo x y; stroke ])).

Definition stopDrawing (d : Drawing) : Drawing := setIsDrawing false d.

(** One event on the canvas: the next drawing state and the commands the
    context received. *)
Definition draw_step (canvas : option (Canvas number))
  (e : DrawEvent number) (d : Drawing)
  : completion (Drawing * list (CanvasCommand number)) :=
  match e with
  | PointerDown pe => startDrawing canvas pe d
  | PointerMove pe => draw canvas pe d
  | PointerUp => Normal (stopDrawing d, [])
  | PickTool t => Normal (setTool t d, [])
  | ClearMarkings => Normal (d, clearCanvas canvas)
  end.

(** A run of events, up to the first uncaught exception; the commands of
    the events in order. *)
Fixpoint draw_run (canvas : option (Canvas number))
  (es : list (DrawEvent number)) (d : Drawing)
  : completion (Drawing * list (CanvasCommand number)) :=
  match es with
  | [] => Normal (d, [])
  | e :: rest =>
      bind_completion (draw_step canvas e d)
        (λ '(d', cmds),
           bind_completion (draw_run canvas rest d')
             (λ '(d'', cmds'), Normal (d'', cmds ++ cmds')))
  end.

(** The ink of one segment of a stroke. *)
Definition segment (c : Canvas number) (p : number * number)
  : list (CanvasCommand number) :=
  [ lineTo (minus p.1 (rect_left c)) (minus p.2 (rect_top c)); stroke ].

End Drawing.

(** Whether a command puts ink on the canvas. *)
Definition is_ink {number} (c : CanvasCommand number) : bool :=
  match c with
  | lineTo _ _ | stroke => true
  | _ => false
  end.

(** Every [lineTo] and [stroke] of a run of commands comes after a
    [beginPath]; [begun] says whether a path was begun before the run. *)
Fixpoint ink_follows_path {number} (begun : bool)
  (cmds : list (CanvasCommand number)) : bool :=
  match cmds with
  | [] => true
  | beginPath :: rest => ink_follows_path true rest
  | lineTo _ _ :: rest | stroke :: rest => begun && ink_follows_path begun rest
  | _ :: rest => ink_follows_path begun rest
  end.

Definition begins_path {number} (c : CanvasCommand number) : bool :=
  match c with
  | beginPath => true
  | _ => false
  end.

(** A mouse event at a point, and the events of one stroke with the mouse:
    down at [p0], a move to each of [ps], up. *)
Definition mouse_at {number} (p : number * number) : PointerEvent number :=
  MouseEvent p.1 p.2.

Definition mouse_stroke {number} (p0 : number * number)
  (ps : list (number * number)) : list (DrawEvent number) :=
  PointerDown (mouse_at p0) :: (PointerMove ∘ mouse_at <$> ps) ++ [PointerUp].

(** ** Error boundary *)

Module ErrorBoundary.

(** The state of the boundary; [Error] is the type of what was thrown. *)
Record ErrorBoundaryState (Error : Type) := {
  hasError : bool;
  error : option Error
}.
Arguments hasError {Error} _.
Arguments error {Error} _.

(** What [render] returns: the failure screen, with the text it shows for
    the error, or the children. *)
Inductive Rendered (Children : Type) :=
  | FailureScreen (shown : option string)
  | ChildrenShown (children : Children).
Arguments FailureScreen {Children} shown.
Arguments ChildrenShown {Children} children.

Section Boundary.
Variable Error : Type.
Variable toString : Error → string.
Variable Children : Type.

(** The state the constructor sets. *)
Definition initialState : ErrorBoundaryState Error :=
  {| hasError := false; error := None |}.

Definition getDerivedStateFromError (e : Error) : ErrorBoundaryState Error :=
  {| hasError := true; error := Some e |}.

Definition render (state : ErrorBoundaryState Error) (children : Children)
  : Rendered Children :=
  if hasError state
  then FailureScreen (toString <$> error state)
  else ChildrenShown children.

(** The state after the errors [caught], the oldest first: React replaces
    the state with what [getDerivedStateFromError] returns. *)
Definition after_errors (caught : list Error) : ErrorBoundaryState Error :=
  foldl (λ _ e, getDerivedStateFromError e) initialState caught.

End Boundary.

End ErrorBoundary.

(** ** Identifiers and keys *)

(** [`${activeTab}-${idx}`], the identifier of an item of the list. *)
Definition uniqueId (tab idx : nat) : string :=
  pretty tab +:+ "-" +:+ pretty idx.

(** The [key] of a child of the list container; the notice has none. *)
Definition child_key (c : Child) : option string :=
  match c with
  | NoItemsNotice _ => None
  | LoadCipherCard key _ | ItemRow key _ _ _ _ | EmptySlot key _ => Some key
  end.

Definition is_digit (c : ascii) : bool :=
  bool_decide (c ∈ ["0"; "1"; "2"; "3"; "4"; "5"; "6"; "7"; "8"; "9"]%char).

Fixpoint all_digits (s : string) : bool :=
  match s with
  | EmptyString => true
  | String c rest => is_digit c && all_digits rest
  end.

(** Tab 0 with the first two items revealed. *)
Definition two_revealed : gset string := {[ uniqueId 0 0; uniqueId 0 1 ]}.

(** The solved "cat" game after its check. *)
Definition cat_checked : Cipher := step letters (Check quiet) cat_solved.

(** "cat" with tile 1 hidden, and the bank entry made for it. *)
Definition cat_one_hidden : Cipher :=
  step letters (ToggleTile keep_order 1)
    (step letters (LoadWord "cat") initialCipher).

Definition bank_a : BankItem := {| id := "bank-1"; tile := Some tile_a |}.

(** "cat" with tiles 0 and 1 hidden and each placed on its own slot. *)
Definition cat_both_placed : Cipher :=
  step letters (SlotClick 0 1)
    (step letters (BankTileClick "bank-1")
       (step letters (SlotClick 0 0)
          (step letters (BankTileClick "bank-0")
             (step letters (ToggleTile keep_order 1)
                (step letters (ToggleTile keep_order 0)
                   (step letters (LoadWord "cat") initialCipher)))))).

(** A game left with the bank entry of index 1 selected. *)
Definition left_selected : Cipher :=
  handleBankTileClick "bank-1" cat_one_hidden.

(** A canvas of 800 by 600 whose corner is at (10, 20), with integers for
    numbers, and the blue pen at rest. *)
Definition sheet : Canvas Z :=
  {| rect_left := 10%Z; rect_top := 20%Z; canvas_width := 800;
     canvas_height := 600; context2d := true |}.

Definition blue_pen : Drawing := {| tool := pen_blue; isDrawing := false |}.

(** ** What the engine tells the page *)

(** The component never writes [playingId] while it speaks: it leaves
    closures on the utterance, and the engine runs them when it reports an
    event on that utterance. *)
Definition Notice : Type := SpeechSynthesisUtterance * SpeechEvent.

Definition deliver (p : Playback) (n : Notice) : Playback :=
  dispatch n.1 n.2 p.

Definition deliver_all (ns : list Notice) (p : Playback) : Playback :=
  foldl deliver p ns.

(** The component makes its utterances in [speakWord] and nowhere else. *)
Definition spoken_by_speakWord (u : SpeechSynthesisUtterance) : Prop :=
  ∃ p text id, speak u ∈ speakWord p text id.

(** The notices that can reach the page once a handler has sent [cmds] while
    the engine had [inFlight] in flight: the events of an utterance the
    handler spoke; and, the handler having sent [cancel], the end of the
    utterance in flight, which the engine reports on it as an end or as an
    error, as the spec says of cancelling.  The order in which notices
    arrive is left open. *)
Definition may_follow (inFlight : option SpeechSynthesisUtterance)
  (cmds : list SpeechCommand) (n : Notice) : Prop :=
  speak n.1 ∈ cmds
  ∨ (cancel ∈ cmds ∧ inFlight = Some n.1 ∧ n.2 ≠ started).

(** What the spec says of [speak] without an identifier, called in playback
    state [p] while [inFlight] is in flight: whatever the engine reports
    afterwards, the playing identifier is the one of [p]. *)
Definition keeps_playingId (inFlight : option SpeechSynthesisUtterance)
  (p : Playback) (text : string) : Prop :=
  ∀ ns, Forall (may_follow inFlight (speakWord p text None)) ns →
    playingId (deliver_all ns p) = playingId p.

(** The first sentence of the sixth tab, as its audio button speaks it, and
    the playback state once the engine has reported its start. *)
Definition sentence_utterance : SpeechSynthesisUtterance :=
  {| utterance_text := "The cat sat.";
     voice := None;
     rate := 0.9%Q;
     onstart := Some (CallSetPlayingId (Some "5-0"));
     onend := Some (CallSetPlayingId None);
     onerror := Some (CallSetPlayingId None) |}.

Definition sentence_playing : Playback :=
  dispatch sentence_utterance started quiet.

(** The utterance of the feedback "Try again.". *)
Definition try_again_utterance : SpeechSynthesisUtterance :=
  {| utterance_text := "Try again.";
     voice := None;
     rate := 0.9%Q;
     onstart := None;
     onend := None;
     onerror := None |}.

(** * Properties *)

(** ** [Array.prototype.find] *)

Lemma find_elem_of {A} (f : A → bool) (l : list A) x :
  List.find f l = Some x → x ∈ l ∧ f x = true.
Proof. intros Hfind. apply find_some in Hfind. by rewrite list_elem_of_In. Qed.

Lemma find_none_elem_of {A} (f : A → bool) (l : list A) :
  List.find f l = None → ∀ x, x ∈ l → f x = false.
Proof.
  intros Hfind x Hx. apply (find_none f l Hfind). by apply list_elem_of_In.
Qed.

(** ** Reveal tracker *)

Lemma toggleReveal_elem_of id x (ids : gset string) :
  x ∈ toggleReveal id ids ↔ (x = id ∧ id ∉ ids) ∨ (x ≠ id ∧ x ∈ ids).
Proof.
  unfold toggleReveal. destruct (decide (id ∈ ids)) as [Hin|Hout].
  - rewrite elem_of_difference, elem_of_singleton. split.
    + intros [Hx Hne]. right. split; assumption.
    + intros [[_ Hout]|[Hne Hx]]; [contradiction|]. split; assumption.
  - rewrite elem_of_union, elem_of_singleton. split.
    + intros [->|Hx]; [left; split; [reflexivity|assumption]|].
      right. split; [|assumption]. intros ->. contradiction.
    + intros [[-> _]|[_ Hx]]; [left; reflexivity|right; assumption].
Qed.

(** C6: [toggleReveal id] flips whether [id] is revealed, leaves every other
    identifier as it was, and applied twice gives back the set it started
    from. *)
Theorem toggleReveal_flips_and_involutive id (ids : gset string) :
  (id ∈ toggleReveal id ids ↔ id ∉ ids)
  ∧ (∀ x, x ≠ id → (x ∈ toggleReveal id ids ↔ x ∈ ids))
  ∧ toggleReveal id (toggleReveal id ids) = ids.
Proof.
  split; [|split].
  - rewrite toggleReveal_elem_of. tauto.
  - intros x Hx. rewrite toggleReveal_elem_of. tauto.
  - apply set_eq. intros x. rewrite !toggleReveal_elem_of.
    destruct (decide (x = id)) as [->|Hne]; [|tauto].
    destruct (decide (id ∈ ids)); tauto.
Qed.

(** ** Playback controller *)

Lemma is_markup_spec c : is_markup c = true ↔ c ∈ markup.
Proof. unfold is_markup. apply bool_decide_eq_true. Qed.

Lemma cleanText_filter text :
  list_ascii_of_string (cleanText text)
  = filter (λ c, c ∉ markup) (list_ascii_of_string text).
Proof.
  induction text as [|c rest IH]; simpl; [done|].
  destruct (is_markup c) eqn:Hc.
  - apply is_markup_spec in Hc. rewrite filter_cons_False by tauto. exact IH.
  - assert (c ∉ markup) as Hout.
    { intros Hin. apply is_markup_spec in Hin. congruence. }
    rewrite filter_cons_True by done. simpl. by rewrite IH.
Qed.

Lemma cleanText_no_markup text c :
  c ∈ markup → c ∉ list_ascii_of_string (cleanText text).
Proof.
  intros Hc. rewrite cleanText_filter, list_elem_of_filter. tauto.
Qed.

(** C5: [speakWord] first sends [cancel], then speaks one utterance whose
    text is the input without any of the characters / \ { } [ ] - (all other
    characters kept, in order) and whose rate is 0.5 when [isSlow] is on and
    0.9 when it is off. *)
Theorem speakWord_cancels_strips_and_paces p text id :
  ∃ u, speakWord p text id = [cancel; speak u]
    ∧ markup = ["/"; "\"; "{"; "}"; "["; "]"; "-"]%char
    ∧ list_ascii_of_string (utterance_text u)
      = filter (λ c, c ∉ markup) (list_ascii_of_string text)
    ∧ (∀ c, c ∈ markup → c ∉ list_ascii_of_string (utterance_text u))
    ∧ rate u = (if isSlow p then 0.5 else 0.9)%Q.
Proof.
  eexists. split; [reflexivity|]. simpl.
  split; [reflexivity|]. split; [apply cleanText_filter|].
  split; [|reflexivity]. intros c. apply cleanText_no_markup.
Qed.

Lemma speakWord_without_id_silent p text : Forall silent (speakWord p text None).
Proof. unfold speakWord. repeat constructor. Qed.

Lemma silent_dispatch u e q : silent (speak u) → dispatch u e q = q.
Proof.
  intros (Hs & He & Hr). unfold dispatch, callback_for.
  destruct e; rewrite ?Hs, ?He, ?Hr; reflexivity.
Qed.

Lemma checkCipherAnswer_silent p s s' cmds :
  checkCipherAnswer p s = Normal (s', cmds) → Forall silent cmds.
Proof.
  unfold checkCipherAnswer. case_bool_decide.
  - intros [= _ <-]. constructor.
  - destruct (forEach _ _ _) as [all_match|]; simpl; [|discriminate].
    intros [= _ <-].
    destruct (cipherWord s) as [word|]; [destruct (all_match && truthy word)|];
      apply speakWord_without_id_silent.
Qed.

Lemma checkCipherAnswer_speaks p s s' cmds :
  checkCipherAnswer p s = Normal (s', cmds) →
  cmds = [] ∨ ∃ said, cmds = speakWord p said None.
Proof.
  unfold checkCipherAnswer. case_bool_decide.
  - intros [= _ <-]. by left.
  - destruct (forEach _ _ _) as [all_match|]; simpl; [|discriminate].
    intros [= _ <-]. right.
    destruct (cipherWord s) as [word|]; [destruct (all_match && truthy word)|];
      by eexists.
Qed.

(** The end of an utterance of [speakWord] clears the playing identifier or
    leaves the state alone, by whether it was spoken for an item. *)
Lemma spoken_by_speakWord_end u e q :
  spoken_by_speakWord u → e ≠ started →
  dispatch u e q = q ∨ dispatch u e q = setPlayingId None q.
Proof.
  intros (p & text & id & Hu) He. unfold speakWord in Hu.
  apply elem_of_cons in Hu as [Hu|Hu]; [discriminate|].
  apply list_elem_of_singleton in Hu. injection Hu as ->.
  unfold dispatch, callback_for. simpl.
  destruct e; [done| |]; destruct (truthy_opt id); simpl; auto.
Qed.

Lemma may_follow_effect inFlight p text n q :
  (∀ u0, inFlight = Some u0 → spoken_by_speakWord u0) →
  may_follow inFlight (speakWord p text None) n →
  deliver q n = q ∨ deliver q n = setPlayingId None q.
Proof.
  intros Hmade [Hown|(_ & Hflight & He)]; unfold deliver.
  - left. apply silent_dispatch.
    exact (proj1 (Forall_forall _ _) (speakWord_without_id_silent p text) _ Hown).
  - by apply spoken_by_speakWord_end; [apply Hmade|].
Qed.

Lemma deliver_all_keeps_or_clears inFlight p text ns q :
  (∀ u0, inFlight = Some u0 → spoken_by_speakWord u0) →
  Forall (may_follow inFlight (speakWord p text None)) ns →
  deliver_all ns q = q ∨ deliver_all ns q = setPlayingId None q.
Proof.
  intros Hmade Hns. revert q.
  induction Hns as [|n ns Hn _ IH]; intros q; [by left|].
  unfold deliver_all. simpl. fold (deliver_all ns (deliver q n)).
  destruct (may_follow_effect _ _ _ _ q Hmade Hn) as [->| ->].
  - apply IH.
  - destruct (IH (setPlayingId None q)) as [->| ->]; by right.
Qed.

Lemma deliver_all_cleared inFlight p text ns q :
  (∀ u0, inFlight = Some u0 → spoken_by_speakWord u0) →
  Forall (may_follow inFlight (speakWord p text None)) ns →
  playingId q = None → playingId (deliver_all ns q) = None.
Proof.
  intros Hmade Hns Hq.
  by destruct (deliver_all_keeps_or_clears _ _ _ _ q Hmade Hns) as [->| ->].
Qed.

Lemma item_end_clears p text id u e q :
  truthy id = true → speak u ∈ speakWord p text (Some id) → e ≠ started →
  playingId (dispatch u e q) = None.
Proof.
  intros Hid Hu He. unfold speakWord in Hu. simpl in Hu. rewrite Hid in Hu.
  apply elem_of_cons in Hu as [Hu|Hu]; [discriminate|].
  apply list_elem_of_singleton in Hu. injection Hu as ->. by destruct e.
Qed.

(** C10, as the code has it: [speak] without an item identifier marks no
    list item as playing.  Its utterance carries no start, end or error
    callback, so no event of that utterance changes the playback state.
    Whatever the engine reports after the call, on the new utterance or as
    the end of an utterance the call's [cancel] found in flight, the state
    is the one of the call or that state with the playing identifier
    cleared; with nothing in flight it is the state of the call.  When an
    item's utterance was in flight and its end is reported, the identifier
    is cleared.  All that [checkCipherAnswer] sends is such a call. *)
Theorem speech_without_id_marks_no_item inFlight p text ns :
  (∀ u0, inFlight = Some u0 → spoken_by_speakWord u0) →
  Forall (may_follow inFlight (speakWord p text None)) ns →
  Forall silent (speakWord p text None)
  ∧ (∀ u e q, speak u ∈ speakWord p text None → dispatch u e q = q)
  ∧ (deliver_all ns p = p ∨ deliver_all ns p = setPlayingId None p)
  ∧ (inFlight = None → deliver_all ns p = p)
  ∧ (∀ u0 e p0 text0 id0,
       inFlight = Some u0 →
       truthy id0 = true → speak u0 ∈ speakWord p0 text0 (Some id0) →
       (u0, e) ∈ ns → e ≠ started →
       playingId (deliver_all ns p) = None)
  ∧ (∀ s s' cmds,
       checkCipherAnswer p s = Normal (s', cmds) →
       cmds = [] ∨ ∃ said, cmds = speakWord p said None).
Proof.
  intros Hmade Hns.
  pose proof (speakWord_without_id_silent p text) as Hsilent.
  split; [exact Hsilent|]. split; [|split; [|split; [|split]]].
  - intros u e q Hu. apply silent_dispatch.
    by apply (proj1 (Forall_forall _ _) Hsilent).
  - by apply (deliver_all_keeps_or_clears inFlight p text).
  - intros ->. clear Hmade. enough (∀ q, deliver_all ns q = q) as Hall by done.
    induction Hns as [|n ns Hn _ IH]; intros q; [done|].
    unfold deliver_all. simpl. fold (deliver_all ns (deliver q n)).
    destruct Hn as [Hown|(_ & [=] & _)].
    unfold deliver. rewrite silent_dispatch; [apply IH|].
    exact (proj1 (Forall_forall _ _) Hsilent _ Hown).
  - intros u0 e p0 text0 id0 Hflight Hid Hu0 Hin He.
    enough (∀ q, playingId (deliver_all ns q) = None) as Hall by done.
    induction Hns as [|n ns Hn Hns IH]; intros q; [by apply elem_of_nil in Hin|].
    unfold deliver_all. simpl. fold (deliver_all ns (deliver q n)).
    apply elem_of_cons in Hin as [<-|Hin]; [|by apply IH].
    apply (deliver_all_cleared inFlight p text); [done..|].
    unfold deliver. simpl. by apply (item_end_clears p0 text0 id0).
  - intros s s' cmds. apply checkCipherAnswer_speaks.
Qed.

(** C10 as stated fails.  The first sentence of the sixth tab is being
    spoken and is marked as playing.  The player turns game mode on, loads a
    word and, nothing being hidden, presses Check Answer: the feedback is
    spoken without an identifier, its [cancel] ends the sentence, and the
    sentence's own callback clears the playing identifier, whether the
    engine reports the end as an end or as an error. *)
Lemma check_feedback_clears_the_playing_item :
  speakWord quiet "The cat sat." (Some (uniqueId 5 0))
  = [cancel; speak sentence_utterance]
  ∧ playingId sentence_playing = Some (uniqueId 5 0)
  ∧ reachable_by letters in_view cat_loaded
  ∧ checkButtonShown cat_loaded = true
  ∧ checkCipherAnswer sentence_playing cat_loaded
    = Normal (setCheckResult (Some correct) cat_loaded,
              speakWord sentence_playing "Correct! cat" None)
  ∧ may_follow (Some sentence_utterance)
      (speakWord sentence_playing "Correct! cat" None)
      (sentence_utterance, ended)
  ∧ may_follow (Some sentence_utterance)
      (speakWord sentence_playing "Correct! cat" None)
      (sentence_utterance, errored)
  ∧ playingId (deliver_all [(sentence_utterance, ended)] sentence_playing)
    = None
  ∧ playingId (deliver_all [(sentence_utterance, errored)] sentence_playing)
    = None
  ∧ ¬ keeps_playingId (Some sentence_utterance) sentence_playing "Correct! cat".
Proof.
  assert (∀ e, e ≠ started →
            may_follow (Some sentence_utterance)
              (speakWord sentence_playing "Correct! cat" None)
              (sentence_utterance, e)) as Hfollow.
  { intros e He. right. split; [apply list_elem_of_here|]. by split. }
  split; [vm_compute; reflexivity|]. split; [vm_compute; reflexivity|].
  split.
  { unfold cat_loaded.
    apply (reachable_step letters in_view initialCipher (LoadWord "cat"));
      [apply reachable_initial|exact I]. }
  split; [vm_compute; reflexivity|]. split; [vm_compute; reflexivity|].
  split; [by apply Hfollow|]. split; [by apply Hfollow|].
  split; [reflexivity|]. split; [reflexivity|].
  intros Hkeeps.
  specialize (Hkeeps [(sentence_utterance, errored)]).
  assert (playingId sentence_playing = None) as Hnone.
  { rewrite <- Hkeeps; [reflexivity|].
    constructor; [by apply Hfollow|constructor]. }
  discriminate Hnone.
Qed.

Lemma speech_without_id_marks_no_item_witness :
  (∀ u0, Some sentence_utterance = Some u0 → spoken_by_speakWord u0)
  ∧ Forall (may_follow (Some sentence_utterance)
              (speakWord sentence_playing "Try again." None))
      [ (try_again_utterance, started); (sentence_utterance, errored);
        (try_again_utterance, ended) ]
  ∧ playingId
      (deliver_all
         [ (try_again_utterance, started); (sentence_utterance, errored);
           (try_again_utterance, ended) ] sentence_playing)
    = None.
Proof.
  assert (speak sentence_utterance
          ∈ speakWord quiet "The cat sat." (Some "5-0")) as Hitem.
  { apply list_elem_of_further, list_elem_of_here. }
  assert (∀ u0, Some sentence_utterance = Some u0 → spoken_by_speakWord u0)
    as Hmade.
  { intros u0 [= <-]. by exists quiet, "The cat sat.", (Some "5-0"). }
  assert (Forall (may_follow (Some sentence_utterance)
                    (speakWord sentence_playing "Try again." None))
            [ (try_again_utterance, started); (sentence_utterance, errored);
              (try_again_utterance, ended) ]) as Hns.
  { apply Forall_cons_2; [|apply Forall_cons_2; [|apply Forall_cons_2;
                                                      [|apply Forall_nil_2]]].
    - left. apply list_elem_of_further, list_elem_of_here.
    - right. split; [apply list_elem_of_here|]. by split.
    - left. apply list_elem_of_further, list_elem_of_here. }
  split; [exact Hmade|]. split; [exact Hns|].
  destruct (speech_without_id_marks_no_item _ _ _ _ Hmade Hns)
    as (_ & _ & _ & _ & Hcleared & _).
  apply (Hcleared sentence_utterance errored quiet "The cat sat." "5-0");
    [reflexivity|reflexivity|exact Hitem| |discriminate].
  apply list_elem_of_further, list_elem_of_here.
Defined.

(** ** Cipher game: hiding and unhiding *)

Lemma toggleTileHidden_hide shuffle i s :
  i ∉ hiddenIndices s →
  toggleTileHidden shuffle i s
  = setCheckResult None
      (setHiddenIndices ({[i]} ∪ hiddenIndices s)
         (setBankTiles
            (shuffle (bankTiles s
                      ++ [ {| id := bankId i; tile := cipherTiles s !! i |} ]))
            s)).
Proof. intros Hi. unfold toggleTileHidden. by rewrite decide_False. Qed.

Lemma toggleTileHidden_unhide shuffle i s :
  i ∈ hiddenIndices s →
  toggleTileHidden shuffle i s
  = setCheckResult None
      (setHiddenIndices (hiddenIndices s ∖ {[i]})
         (setDraggedTiles (delete i (draggedTiles s))
            (setBankTiles (filter (λ t, id t ≠ bankId i) (bankTiles s)) s))).
Proof. intros Hi. unfold toggleTileHidden. by rewrite decide_True. Qed.

(** C3: hiding a tile that is not hidden and unhiding it at once leaves slot
    [i] as before the hide: [i] is not hidden, the bank has no entry with the
    identifier of [i], and [i] has no placement; the hidden set is the one
    before, and no other slot's placement has changed. *)
Theorem hide_then_unhide_restores_slot shuffle shuffle' i s :
  i ∉ hiddenIndices s →
  let s' := toggleTileHidden shuffle' i (toggleTileHidden shuffle i s) in
  ((i ∉ hiddenIndices s')
   ∧ (∀ b, b ∈ bankTiles s' → id b ≠ bankId i)
   ∧ draggedTiles s' !! i = None
   ∧ hiddenIndices s' = hiddenIndices s
   ∧ (∀ j, j ≠ i → draggedTiles s' !! j = draggedTiles s !! j)).
Proof.
  intros Hi s'. subst s'.
  rewrite (toggleTileHidden_hide shuffle i s Hi).
  rewrite toggleTileHidden_unhide by (simpl; set_solver).
  simpl. repeat split.
  - set_solver.
  - intros b Hb. apply list_elem_of_filter in Hb. tauto.
  - apply lookup_delete_eq.
  - set_solver.
  - intros j Hj. by apply lookup_delete_ne.
Qed.

(** With a shuffle that reorders, the bank after the round trip is the bank
    before it, reordered, less any stale entry under the identifier of [i]. *)
Lemma hide_then_unhide_bank shuffle shuffle' i s :
  (∀ l, shuffle l ≡ₚ l) →
  i ∉ hiddenIndices s →
  bankTiles (toggleTileHidden shuffle' i (toggleTileHidden shuffle i s))
  ≡ₚ filter (λ t, id t ≠ bankId i) (bankTiles s).
Proof.
  intros Hperm Hi.
  rewrite (toggleTileHidden_hide shuffle i s Hi).
  rewrite toggleTileHidden_unhide by (simpl; set_solver).
  simpl. rewrite Hperm, filter_app. simpl.
  rewrite filter_cons_False by (simpl; tauto).
  by rewrite filter_nil, app_nil_r.
Qed.

(** ** Cipher game: what every reachable state satisfies *)

Lemma checkCipherAnswer_state p s s' cmds :
  checkCipherAnswer p s = Normal (s', cmds) →
  s' = s
  ∨ (size (draggedTiles s) = size (hiddenIndices s)
     ∧ ∃ r, s' = setCheckResult (Some r) s).
Proof.
  unfold checkCipherAnswer. case_bool_decide as Hsize.
  - intros [= <- _]. by left.
  - destruct (forEach _ _ _) as [all_match|]; simpl; [|discriminate].
    intros [= <- _]. right. split; [|by eexists].
    destruct (decide (size (draggedTiles s) = size (hiddenIndices s))); tauto.
Qed.

Lemma handleSlotClick_not_hidden now i s :
  i ∉ hiddenIndices s → handleSlotClick now i s = s.
Proof. intros Hi. unfold handleSlotClick. by rewrite decide_False. Qed.

Lemma initCipherGame_empty parse word s :
  hiddenIndices (initCipherGame parse word s) = ∅
  ∧ draggedTiles (initCipherGame parse word s) = ∅
  ∧ bankTiles (initCipherGame parse word s) = []
  ∧ checkResult (initCipherGame parse word s) = None.
Proof. done. Qed.

Lemma unhide_deletes_placement shuffle i s :
  i ∈ hiddenIndices s → draggedTiles (toggleTileHidden shuffle i s) !! i = None.
Proof.
  intros Hi. rewrite toggleTileHidden_unhide by done. apply lookup_delete_eq.
Qed.

Section GameFacts.
Variable parseWordToTiles : string → list TileData.

Lemma reachable_by_weaken (P Q : Cipher → Event → Prop) s :
  (∀ s e, P s e → Q s e) →
  reachable_by parseWordToTiles P s → reachable_by parseWordToTiles Q s.
Proof.
  intros HPQ. induction 1 as [|s e _ IH He].
  - constructor.
  - constructor; auto.
Qed.

Lemma reachable_on_tiles_reachable s :
  reachable_on_tiles parseWordToTiles s → reachable parseWordToTiles s.
Proof. apply reachable_by_weaken. intros ? []; simpl; tauto. Qed.

Lemma step_Check_state p s :
  step parseWordToTiles (Check p) s = s
  ∨ (size (draggedTiles s) = size (hiddenIndices s)
     ∧ ∃ r, step parseWordToTiles (Check p) s = setCheckResult (Some r) s).
Proof.
  simpl. destruct (checkCipherAnswer p s) as [[s' cmds]|] eqn:Hcheck;
    [|by left].
  exact (checkCipherAnswer_state _ _ _ _ Hcheck).
Qed.

Lemma placed_hidden_step e s :
  dom (draggedTiles s) ⊆ hiddenIndices s →
  dom (draggedTiles (step parseWordToTiles e s))
  ⊆ hiddenIndices (step parseWordToTiles e s).
Proof.
  intros Hinv. destruct e as [word|shuffle i|b|now i|p|].
  - simpl. set_solver.
  - simpl. unfold toggleTileHidden. case_decide; simpl.
    + rewrite dom_delete_L. set_solver.
    + set_solver.
  - exact Hinv.
  - simpl. unfold handleSlotClick.
    repeat case_match; simpl; rewrite ?dom_insert_L, ?dom_delete_L; set_solver.
  - destruct (step_Check_state p s) as [->|[_ [r ->]]]; exact Hinv.
  - exact Hinv.
Qed.

(** C9: in every state reached from the first render by loading words,
    toggling tiles, clicking bank tiles and slots, checking and closing,
    every key of [draggedTiles] is in [hiddenIndices]; for loading a word
    empties both, a click on a slot that is not hidden changes nothing, and
    unhiding an index deletes the placement at that index. *)
Theorem placed_keys_are_hidden s :
  reachable parseWordToTiles s →
  dom (draggedTiles s) ⊆ hiddenIndices s
  ∧ (∀ word,
       hiddenIndices (initCipherGame parseWordToTiles word s) = ∅
       ∧ draggedTiles (initCipherGame parseWordToTiles word s) = ∅)
  ∧ (∀ now i, i ∉ hiddenIndices s → handleSlotClick now i s = s)
  ∧ (∀ shuffle i,
       i ∈ hiddenIndices s →
       draggedTiles (toggleTileHidden shuffle i s) !! i = None).
Proof.
  intros Hreach. split; [|split; [|split]].
  - induction Hreach as [|s e _ IH _].
    + simpl. set_solver.
    + by apply placed_hidden_step.
  - done.
  - intros now i. apply handleSlotClick_not_hidden.
  - intros shuffle i. apply unhide_deletes_placement.
Qed.

End GameFacts.

Lemma well_formed_initial : well_formed initialCipher.
Proof.
  split; simpl;
    first [ done | set_solver | intros i v; by rewrite lookup_empty ].
Qed.

Lemma well_formed_initCipherGame parse word s :
  well_formed (initCipherGame parse word s).
Proof.
  split; simpl;
    first [ done | set_solver | intros i v; by rewrite lookup_empty ].
Qed.

Lemma well_formed_toggleTileHidden shuffle i s :
  (∀ l, shuffle l ≡ₚ l) → i < length (cipherTiles s) →
  well_formed s → well_formed (toggleTileHidden shuffle i s).
Proof.
  intros Hperm Hi [Hdom Hrange Hbank Hplaced _].
  unfold toggleTileHidden. case_decide; split; simpl; try done.
  - rewrite dom_delete_L. set_solver.
  - set_solver.
  - intros b Hb. apply list_elem_of_filter in Hb. apply Hbank. tauto.
  - intros j v Hj. apply lookup_delete_Some in Hj. naive_solver.
  - set_solver.
  - intros j Hj. apply elem_of_union in Hj as [Hj|Hj]; [|by apply Hrange].
    apply elem_of_singleton in Hj. by subst.
  - intros b Hb. rewrite Hperm in Hb.
    apply elem_of_app in Hb as [Hb|Hb]; [by apply Hbank|].
    apply list_elem_of_singleton in Hb. subst b. simpl.
    by apply lookup_lt_is_Some.
Qed.

Lemma well_formed_handleBankTileClick b s :
  well_formed s → well_formed (handleBankTileClick b s).
Proof. intros [? ? ? ? ?]. by split. Qed.

Lemma well_formed_return now i t s :
  well_formed s →
  well_formed
    (setCheckResult None
       (setBankTiles (bankTiles s ++ [ {| id := returnedId now; tile := Some t |} ])
          (setDraggedTiles (delete i (draggedTiles s)) s))).
Proof.
  intros [Hdom Hrange Hbank Hplaced _]. split; simpl; try done.
  - rewrite dom_delete_L. set_solver.
  - intros b Hb. apply elem_of_app in Hb as [Hb|Hb]; [by apply Hbank|].
    apply list_elem_of_singleton in Hb. by subst b.
  - intros j v Hj. apply lookup_delete_Some in Hj. naive_solver.
Qed.

Lemma well_formed_handleSlotClick now i s :
  well_formed s → well_formed (handleSlotClick now i s).
Proof.
  intros Hwf. pose proof Hwf as [Hdom Hrange Hbank Hplaced Hres].
  unfold handleSlotClick.
  destruct (decide (i ∈ hiddenIndices s)) as [Hi|]; [|done].
  assert (∀ selected bankItem,
            List.find (λ b, bool_decide (id b = selected)) (bankTiles s)
            = Some bankItem →
            well_formed
              (setCheckResult None
                 (setSelectedBankTile None
                    (setBankTiles (filter (λ b, id b ≠ selected) (bankTiles s))
                       (setDraggedTiles
                          (<[i := tile bankItem]> (draggedTiles s)) s)))))
    as Hplace.
  { intros selected bankItem Hfind. apply find_some in Hfind as [Hin _].
    apply list_elem_of_In in Hin. split; simpl; try done.
    - rewrite dom_insert_L. set_solver.
    - intros b Hb. apply list_elem_of_filter in Hb. apply Hbank. tauto.
    - intros j v Hj. apply lookup_insert_Some in Hj as [[_ <-]|[_ Hj]].
      + by apply Hbank.
      + by eapply Hplaced. }
  destruct (selectedBankTile s) as [selected|].
  - destruct (truthy selected).
    + destruct (List.find _ _) as [bankItem|] eqn:Hfind; [|done].
      by eapply Hplace.
    + destruct (draggedTiles s !! i) as [[t|]|]; try done.
      by apply well_formed_return.
  - destruct (draggedTiles s !! i) as [[t|]|]; try done.
    by apply well_formed_return.
Qed.

Lemma well_formed_setCheckResult r s :
  size (draggedTiles s) = size (hiddenIndices s) →
  well_formed s → well_formed (setCheckResult r s).
Proof. intros Hsize [? ? ? ? ?]. by split. Qed.

Lemma well_formed_setCipherWord w s :
  well_formed s → well_formed (setCipherWord w s).
Proof. intros [? ? ? ? ?]. by split. Qed.

Section WellFormed.
Variable parseWordToTiles : string → list TileData.

Lemma well_formed_step e s :
  on_tiles s e → well_formed s → well_formed (step parseWordToTiles e s).
Proof.
  intros He Hwf. destruct e as [word|shuffle i|b|now i|p|].
  - apply well_formed_initCipherGame.
  - destruct He as [Hperm Hi]. by apply well_formed_toggleTileHidden.
  - by apply well_formed_handleBankTileClick.
  - by apply well_formed_handleSlotClick.
  - destruct (step_Check_state parseWordToTiles p s) as [->|[Hsize [r ->]]];
      [done|]. by apply well_formed_setCheckResult.
  - by apply well_formed_setCipherWord.
Qed.

Lemma reachable_on_tiles_well_formed s :
  reachable_on_tiles parseWordToTiles s → well_formed s.
Proof.
  induction 1 as [|s e _ IH He].
  - apply well_formed_initial.
  - by apply well_formed_step.
Qed.

End WellFormed.

(** ** Cipher game: checking the answer *)

Lemma forEach_compareSlot s l acc :
  (∀ i, i ∈ l →
     ∃ placed original,
       draggedTiles s !! i = Some (Some placed)
       ∧ cipherTiles s !! i = Some original) →
  forEach (compareSlot s) l acc = Normal (acc && forallb (slot_matches s) l).
Proof.
  revert acc. induction l as [|i l IH]; intros acc Hdef; simpl.
  - by rewrite andb_true_r.
  - destruct (Hdef i) as (placed & original & Hp & Ho); [left|].
    unfold compareSlot at 1, slot_matches at 1. rewrite Hp, Ho. simpl.
    rewrite IH by (intros j Hj; apply Hdef; by right).
    f_equal. destruct (decide (text placed = text original)) as [Heq|Hne].
    + rewrite bool_decide_eq_false_2 by tauto.
      by rewrite (bool_decide_eq_true_2 _ Heq).
    + rewrite (bool_decide_eq_true_2 _ Hne).
      rewrite (bool_decide_eq_false_2 _ Hne). simpl. by rewrite andb_false_r.
Qed.

Lemma all_slots_match_texts_agree s :
  all_slots_match s = true ↔ texts_agree s.
Proof.
  unfold all_slots_match, texts_agree. rewrite forallb_forall. split.
  - intros Hall i Hi. specialize (Hall i).
    rewrite <- list_elem_of_In, elem_of_elements in Hall.
    specialize (Hall Hi). unfold slot_matches in Hall.
    destruct (draggedTiles s !! i) as [[placed|]|]; try discriminate.
    destruct (cipherTiles s !! i) as [original|]; try discriminate.
    apply bool_decide_eq_true in Hall. by exists placed, original.
  - intros Hall i Hi. rewrite <- list_elem_of_In, elem_of_elements in Hi.
    destruct (Hall i Hi) as (placed & original & Hp & Ho & Heq).
    unfold slot_matches. rewrite Hp, Ho. by apply bool_decide_eq_true.
Qed.

Lemma well_formed_covers_size s :
  dom (draggedTiles s) ⊆ hiddenIndices s →
  (covers s ↔ size (draggedTiles s) = size (hiddenIndices s)).
Proof.
  intros Hdom. rewrite <- size_dom. split.
  - intros Hcov. f_equal. apply set_eq. intros i. split; [by apply Hdom|].
    intros Hi. apply elem_of_dom. by apply Hcov.
  - intros Hsize i Hi. apply elem_of_dom.
    assert (dom (draggedTiles s) = hiddenIndices s) as Heq.
    { apply set_subseteq_size_eq; [done|]. by rewrite Hsize. }
    by rewrite Heq.
Qed.

Lemma check_well_formed p s : well_formed s → check_as_specified p s.
Proof.
  intros [Hdom Hrange _ Hplaced Hres].
  pose proof (well_formed_covers_size s Hdom) as Hcov. split.
  - intros Hnot. unfold checkCipherAnswer.
    rewrite bool_decide_eq_true_2 by tauto. split; [done|].
    destruct (checkResult s) as [r|]; [|done].
    exfalso. apply Hnot, Hcov, Hres. done.
  - intros Hcovers. unfold checkCipherAnswer.
    rewrite bool_decide_eq_false_2 by (intros Hne; apply Hne; tauto).
    rewrite forEach_compareSlot; cycle 1.
    { intros i Hi. apply elem_of_elements in Hi.
      destruct (Hcovers i Hi) as [v Hv].
      destruct (Hplaced i v Hv) as [placed ->].
      destruct (lookup_lt_is_Some_2 (cipherTiles s) i (Hrange i Hi))
        as [original Ho].
      by exists placed, original. }
    simpl. fold (all_slots_match s).
    destruct (all_slots_match s) eqn:Hall; eexists.
    + left. split; [by apply all_slots_match_texts_agree|reflexivity].
    + right. split; [|reflexivity].
      rewrite <- all_slots_match_texts_agree. congruence.
Qed.

(** C2: in every state of the game, reached from the first render by the
    handlers with positions of the word hidden and unhidden, [check()] is as
    the spec says.  It leaves the state as it is, the result none, when the
    placements do not cover the hidden indices; when they do, it sets the
    result to correct if every placed text is the original text, and to
    incorrect if not. *)
Theorem check_on_reachable_states parse p s :
  reachable_on_tiles parse s → check_as_specified p s.
Proof.
  intros Hreach. apply check_well_formed.
  by apply (reachable_on_tiles_well_formed parse).
Qed.

(** *** Concrete games *)

(** Closed facts about closed games are decided by evaluation. *)
Ltac by_evaluation := apply (bool_decide_unpack _); vm_compute; exact I.

Lemma keep_order_reorders l : keep_order l ≡ₚ l.
Proof. reflexivity. Qed.

Ltac play :=
  repeat (apply reachable_step);
  [ apply reachable_initial | .. ];
  simpl; try exact I;
  try (split; [exact keep_order_reorders | vm_compute; lia]);
  try exact keep_order_reorders.

Lemma cat_solved_reachable : reachable_on_tiles letters cat_solved.
Proof. unfold reachable_on_tiles, cat_solved. play. Qed.

Lemma cat_c_on_slot_1_reachable : reachable_on_tiles letters cat_c_on_slot_1.
Proof. unfold reachable_on_tiles, cat_c_on_slot_1. play. Qed.

Lemma past_end_reachable : reachable letters past_end.
Proof. unfold reachable, past_end. play. Qed.

(** The spec's scenario: the check of the solved "cat" game says correct. *)
Example cat_solved_checks_correct :
  checkResult (step letters (Check quiet) cat_solved) = Some correct.
Proof. vm_compute. reflexivity. Qed.

Lemma check_on_reachable_states_witness :
  reachable_on_tiles letters cat_solved ∧ check_as_specified quiet cat_solved.
Proof.
  split; [exact cat_solved_reachable|].
  apply (check_on_reachable_states letters quiet cat_solved).
  exact cat_solved_reachable.
Defined.

Lemma overfull_covers : covers overfull.
Proof.
  intros i Hi. simpl in Hi. apply elem_of_singleton in Hi. subst i.
  by exists (Some tile_c).
Qed.

Lemma past_end_covers : covers past_end.
Proof.
  assert (hiddenIndices past_end = {[ 3 ]}) as Hhidden
    by (vm_compute; reflexivity).
  intros i Hi. rewrite Hhidden in Hi. apply elem_of_singleton in Hi. subst i.
  exists None. vm_compute. reflexivity.
Qed.

Lemma check_as_specified_result p s :
  covers s → check_as_specified p s →
  ∃ s' cmds, checkCipherAnswer p s = Normal (s', cmds) ∧ is_Some (checkResult s').
Proof.
  intros Hcov [_ Hspec].
  destruct (Hspec Hcov) as [cmds [[_ ->]|[_ ->]]]; by do 2 eexists.
Qed.

(** Away from those states the handler is not the spec's check, for it
    compares the number of placements with the number of hidden indices and
    reads the text of what is placed.  [overfull] has a placement on a slot
    that is not hidden, which no run of the handlers leads to: there the
    placements cover the one hidden index and the check does nothing.
    [past_end] takes [toggleTileHidden] called with position 3 of a word of
    three tiles: there they cover it too and the check ends in a
    TypeError. *)
Lemma check_counts_placements :
  (covers overfull
   ∧ checkCipherAnswer quiet overfull = Normal (overfull, [])
   ∧ checkResult overfull = None
   ∧ ¬ check_as_specified quiet overfull)
  ∧ (reachable letters past_end
     ∧ covers past_end
     ∧ checkCipherAnswer quiet past_end = Throw TypeError
     ∧ ¬ check_as_specified quiet past_end).
Proof.
  assert (checkCipherAnswer quiet overfull = Normal (overfull, [])) as Hover
    by (vm_compute; reflexivity).
  assert (checkCipherAnswer quiet past_end = Throw TypeError) as Hpast
    by (vm_compute; reflexivity).
  split.
  - split; [exact overfull_covers|]. split; [exact Hover|].
    split; [reflexivity|]. intros Hspec.
    destruct (check_as_specified_result _ _ overfull_covers Hspec)
      as (s' & cmds & Heq & [r Hr]).
    rewrite Hover in Heq. injection Heq as <- _. discriminate Hr.
  - split; [exact past_end_reachable|]. split; [exact past_end_covers|].
    split; [exact Hpast|]. intros Hspec.
    destruct (check_as_specified_result _ _ past_end_covers Hspec)
      as (s' & cmds & Heq & _).
    rewrite Hpast in Heq. discriminate Heq.
Qed.

(** *** The tiles of the hidden indices *)





(** Called one after the other with a tile hidden, as no element of the view
    calls them, the handlers can lose a tile.  With tiles 0 and 1 of "cat"
    hidden and the tile of 0 placed on slot 1, every hidden tile is in
    exactly one of the bank and the placements.  Selecting the bank tile of
    1 and tapping slot 1 again puts it over the tile placed there: the tile
    of the hidden index 0 is then neither in the bank nor placed, and one
    tile is left in play for two hidden indices. *)
Lemma placing_on_a_filled_slot_loses_a_tile :
  reachable letters cat_c_on_slot_1
  ∧ hidden_tiles_kept cat_c_on_slot_1
  ∧ conserved cat_c_on_slot_1
  ∧ cat_c_lost = handleSlotClick 0 1 cat_c_on_slot_1
  ∧ hiddenIndices cat_c_lost = {[ 0; 1 ]}
  ∧ cipherTiles cat_c_lost !! 0 = Some tile_c
  ∧ bankTiles cat_c_lost = []
  ∧ draggedTiles cat_c_lost = {[ 1 := Some tile_a ]}
  ∧ ¬ in_bank tile_c cat_c_lost
  ∧ ¬ is_placed tile_c cat_c_lost
  ∧ ¬ hidden_tiles_kept cat_c_lost
  ∧ ¬ conserved cat_c_lost.
Proof.
  split; [apply reachable_on_tiles_reachable, cat_c_on_slot_1_reachable|].
  split; [by_evaluation|].
  split; [unfold conserved; vm_compute; reflexivity|].
  split; [reflexivity|].
  split; [vm_compute; reflexivity|]. split; [reflexivity|].
  split; [vm_compute; reflexivity|]. split; [vm_compute; reflexivity|].
  split; [by_evaluation|]. split; [by_evaluation|]. split; [by_evaluation|].
  intros Hcons. apply Permutation_length in Hcons. vm_compute in Hcons.
  discriminate Hcons.
Qed.

(** Unhiding does the same to a tile that lies on the slot being unhidden:
    the tile of the hidden index 0, placed on slot 1, goes when tile 1 is
    unhidden. *)
Lemma unhiding_drops_the_tile_on_the_slot :
  reachable letters cat_c_unhidden_away
  ∧ hiddenIndices cat_c_unhidden_away = {[ 0 ]}
  ∧ bankTiles cat_c_unhidden_away = []
  ∧ draggedTiles cat_c_unhidden_away = ∅
  ∧ ¬ hidden_tiles_kept cat_c_unhidden_away.
Proof.
  split; [unfold reachable, cat_c_unhidden_away; play|].
  split; [vm_compute; reflexivity|]. split; [vm_compute; reflexivity|].
  split; [vm_compute; reflexivity|]. by_evaluation.
Qed.

(** *** What the handlers do conserve *)

Lemma filter_out_the_selected (bank : list BankItem) selected bankItem :
  NoDup (id <$> bank) → bankItem ∈ bank → id bankItem = selected →
  bank ≡ₚ bankItem :: filter (λ b, id b ≠ selected) bank.
Proof.
  intros Hnodup Hin Hsel.
  induction bank as [|b rest IH]; [by apply elem_of_nil in Hin|].
  apply NoDup_cons in Hnodup as [Hfresh Hnodup].
  apply elem_of_cons in Hin as [<-|Hin].
  - rewrite filter_cons_False by (simpl; tauto).
    replace (filter (λ b, id b ≠ selected) rest) with rest; [done|].
    clear IH Hnodup. induction rest as [|b' rest IH]; [done|].
    apply not_elem_of_cons in Hfresh as [Hne Hfresh].
    rewrite filter_cons_True by (simpl; congruence). f_equal. by apply IH.
  - assert (id b ≠ selected) as Hne.
    { intros Heq. apply Hfresh. rewrite Heq, <- Hsel.
      by apply list_elem_of_fmap_2. }
    rewrite filter_cons_True by done.
    rewrite (IH Hnodup Hin) at 1. apply Permutation_swap.
Qed.

(** Hiding a tile conserves the tiles. *)
Lemma hide_conserves shuffle i s :
  (∀ l, shuffle l ≡ₚ l) → i ∉ hiddenIndices s →
  conserved s → conserved (toggleTileHidden shuffle i s).
Proof.
  intros Hperm Hi Hcons. rewrite toggleTileHidden_hide by done.
  unfold conserved, pool, hidden_tiles in *. simpl.
  rewrite Hperm, fmap_app, (elements_union_singleton _ _ Hi). simpl.
  rewrite <- Hcons, <- app_assoc. simpl.
  by rewrite <- Permutation_middle.
Qed.

(** Placing the selected bank tile conserves the tiles when the slot is
    empty and the bank holds one entry under the selected identifier. *)
Lemma place_on_empty_slot_conserves now i selected bankItem s :
  i ∈ hiddenIndices s →
  selectedBankTile s = Some selected → truthy selected = true →
  List.find (λ b, bool_decide (id b = selected)) (bankTiles s) = Some bankItem →
  NoDup (id <$> bankTiles s) →
  draggedTiles s !! i = None →
  conserved s → conserved (handleSlotClick now i s).
Proof.
  intros Hi Hsel Htruthy Hfind Hnodup Hempty Hcons.
  unfold handleSlotClick. rewrite decide_True, Hsel, Htruthy, Hfind by done.
  apply find_elem_of in Hfind as [Hin Hid]. apply bool_decide_eq_true in Hid.
  unfold conserved, pool, hidden_tiles in *. simpl.
  rewrite (map_to_list_insert _ _ _ Hempty). simpl.
  rewrite <- Hcons, <- Permutation_middle.
  rewrite (filter_out_the_selected _ _ _ Hnodup Hin Hid) at 2. done.
Qed.

(** Returning a placed tile to the bank conserves the tiles. *)
Lemma return_to_bank_conserves now i s :
  i ∈ hiddenIndices s → truthy_opt (selectedBankTile s) = false →
  conserved s → conserved (handleSlotClick now i s).
Proof.
  intros Hi Hsel Hcons. unfold handleSlotClick. rewrite decide_True by done.
  assert (∀ t, draggedTiles s !! i = Some (Some t) →
            conserved
              (setCheckResult None
                 (setBankTiles
                    (bankTiles s
                     ++ [ {| id := returnedId now; tile := Some t |} ])
                    (setDraggedTiles (delete i (draggedTiles s)) s))))
    as Hreturn.
  { intros t Ht. unfold conserved, pool, hidden_tiles in *. simpl.
    rewrite <- Hcons, <- (map_to_list_delete _ _ _ Ht), fmap_app. simpl.
    rewrite <- app_assoc. reflexivity. }
  destruct (selectedBankTile s) as [selected|]; simpl in Hsel.
  - rewrite Hsel. destruct (draggedTiles s !! i) as [[t|]|]; auto.
  - destruct (draggedTiles s !! i) as [[t|]|]; auto.
Qed.

Lemma hide_then_unhide_restores_slot_witness :
  (1 ∉ hiddenIndices cat_loaded)
  ∧ (let s' :=
       toggleTileHidden keep_order 1 (toggleTileHidden keep_order 1 cat_loaded) in
     ((1 ∉ hiddenIndices s')
      ∧ (∀ b, b ∈ bankTiles s' → id b ≠ bankId 1)
      ∧ draggedTiles s' !! 1 = None
      ∧ hiddenIndices s' = hiddenIndices cat_loaded
      ∧ (∀ j, j ≠ 1 → draggedTiles s' !! j = draggedTiles cat_loaded !! j))).
Proof.
  split; [apply not_elem_of_empty|].
  apply (hide_then_unhide_restores_slot keep_order keep_order 1 cat_loaded).
  apply not_elem_of_empty.
Defined.

Lemma placed_keys_are_hidden_witness :
  reachable letters cat_solved
  ∧ dom (draggedTiles cat_solved) ⊆ hiddenIndices cat_solved.
Proof.
  assert (reachable letters cat_solved) as Hreach
    by exact (reachable_on_tiles_reachable letters _ cat_solved_reachable).
  split; [exact Hreach|].
  exact (proj1 (placed_keys_are_hidden letters cat_solved Hreach)).
Defined.

(** ** Voice selection *)

Lemma bestVoice_preferred vs :
  vs ≠ [] →
  ∃ best, bestVoice vs = Some best ∧ best ∈ vs ∧ preferred vs (head vs) best.
Proof.
  intros Hne. unfold bestVoice, preferred.
  destruct (List.find (λ v, includes "Google US English" (name v)) vs)
    as [g|] eqn:Hg; simpl.
  { apply find_elem_of in Hg as [Hin Hg]. exists g. by repeat split; [|left]. }
  pose proof (find_none_elem_of _ _ Hg) as Hno_g.
  assert (∀ v, v ∈ vs → ¬ named_google v) as Hno_g'.
  { intros v Hv Hgv. unfold named_google in Hgv. rewrite (Hno_g v Hv) in Hgv.
    discriminate. }
  destruct (List.find (λ v, includes "Natural" (name v)) vs) as [n|] eqn:Hn;
    simpl.
  { apply find_elem_of in Hn as [Hin Hn]. exists n.
    split; [done|]. split; [done|]. right. split; [done|]. by left. }
  pose proof (find_none_elem_of _ _ Hn) as Hno_n.
  assert (∀ v, v ∈ vs → ¬ named_natural v) as Hno_n'.
  { intros v Hv Hnv. unfold named_natural in Hnv. rewrite (Hno_n v Hv) in Hnv.
    discriminate. }
  destruct (List.find (λ v, bool_decide (lang v = "en-US")) vs) as [u|] eqn:Hu;
    simpl.
  { apply find_elem_of in Hu as [Hin Hu]. apply bool_decide_eq_true in Hu.
    exists u. split; [done|]. split; [done|].
    right. split; [done|]. right. split; [done|]. by left. }
  pose proof (find_none_elem_of _ _ Hu) as Hno_u.
  assert (∀ v, v ∈ vs → ¬ us_english v) as Hno_u'.
  { intros v Hv Huv. specialize (Hno_u v Hv).
    apply bool_decide_eq_false in Hno_u. contradiction. }
  destruct vs as [|first rest]; [done|]. exists first. simpl.
  split; [done|]. split; [left|].
  right. split; [done|]. right. split; [done|]. right. by split.
Qed.

Lemma preferred_perm vs vs' first best :
  vs ≡ₚ vs' → preferred vs first best → preferred vs' first best.
Proof.
  intros Hperm. unfold preferred.
  assert (∀ P : SpeechSynthesisVoice → Prop,
            (∀ v, v ∈ vs → ¬ P v) → ∀ v, v ∈ vs' → ¬ P v) as Hmove.
  { intros P HP v Hv. apply HP. by rewrite Hperm. }
  intros [Hbest|[Hg Hrest]]; [by left|].
  right. split; [by apply (Hmove named_google)|].
  destruct Hrest as [Hbest|[Hn Hrest]]; [by left|].
  right. split; [by apply (Hmove named_natural)|].
  destruct Hrest as [Hbest|[Hu Hfirst]]; [by left|].
  right. split; [by apply (Hmove us_english)|done].
Qed.

(** C8, as the code has it: with voices available and none selected yet,
    [loadVoices] selects an available voice by this order of preference: a
    voice whose name contains "Google US English"; failing that a voice whose
    name contains "Natural", of whatever language; failing that a voice whose
    language is en-US; failing that the first voice of the list as sorted. *)
Theorem default_voice_by_preference sortVoices available p :
  (∀ l, sortVoices l ≡ₚ l) →
  available ≠ [] →
  selectedVoiceURI p = "" →
  ∃ best,
    best ∈ available
    ∧ selectedVoiceURI (loadVoices sortVoices available p) = voiceURI best
    ∧ voices (loadVoices sortVoices available p) = sortVoices available
    ∧ preferred available (head (sortVoices available)) best.
Proof.
  intros Hperm Hne Hsel. unfold loadVoices. rewrite Hsel. simpl.
  assert (sortVoices available ≠ []) as Hne'.
  { intros Hnil. apply Hne, Permutation_nil_r. by rewrite <- Hnil, Hperm. }
  rewrite bool_decide_eq_true_2
    by (destruct (sortVoices available); [done|simpl; lia]).
  destruct (bestVoice_preferred _ Hne') as (best & -> & Hin & Hpref).
  exists best. simpl. split; [by rewrite <- (Hperm available)|].
  split; [done|]. split; [done|].
  by apply (preferred_perm (sortVoices available)).
Qed.

(** C8 as stated fails: with a voice of language en-US and a British voice
    named Natural available, in either order, the voice selected is the
    British one. *)
Lemma default_voice_can_be_british :
  us_english samantha
  ∧ ¬ us_english sonia
  ∧ selectedVoiceURI (loadVoices (λ l, l) [samantha; sonia] quiet)
    = voiceURI sonia
  ∧ selectedVoiceURI (loadVoices (λ l, l) [sonia; samantha] quiet)
    = voiceURI sonia
  ∧ selectedVoiceURI (loadVoices reverse [samantha; sonia] quiet)
    = voiceURI sonia
  ∧ voiceURI samantha ≠ voiceURI sonia.
Proof.
  split; [reflexivity|]. split; [discriminate|].
  split; [vm_compute; reflexivity|]. split; [vm_compute; reflexivity|].
  split; [vm_compute; reflexivity|]. discriminate.
Qed.

Lemma default_voice_by_preference_witness :
  ∃ best,
    best ∈ [samantha; sonia]
    ∧ selectedVoiceURI (loadVoices reverse [samantha; sonia] quiet)
      = voiceURI best
    ∧ voices (loadVoices reverse [samantha; sonia] quiet)
      = reverse [samantha; sonia]
    ∧ preferred [samantha; sonia] (head (reverse [samantha; sonia])) best.
Proof.
  apply (default_voice_by_preference reverse [samantha; sonia] quiet).
  - intros l. apply reverse_Permutation.
  - discriminate.
  - reflexivity.
Defined.

(** ** The list of a section *)

Lemma count_if_app f l1 l2 : count_if f (l1 ++ l2) = count_if f l1 + count_if f l2.
Proof. unfold count_if. by rewrite List.filter_app, length_app. Qed.

Lemma count_if_all f l : Forall (λ c, f c = true) l → count_if f l = length l.
Proof.
  unfold count_if. induction 1 as [|c l Hc _ IH]; simpl; [done|].
  rewrite Hc. simpl. by rewrite IH.
Qed.

Lemma count_if_none f l : Forall (λ c, f c = false) l → count_if f l = 0.
Proof.
  unfold count_if. induction 1 as [|c l Hc _ IH]; simpl; [done|]. by rewrite Hc.
Qed.

Lemma renderItem_item v idx text :
  is_item (renderItem v idx text) = true
  ∧ is_empty_slot (renderItem v idx text) = false
  ∧ row_text (renderItem v idx text) = Some text.
Proof. unfold renderItem. by destruct (gameMode v). Qed.

Lemma imap_items (f : nat → string → Child) (items : list string) :
  (∀ idx text,
     is_item (f idx text) = true
     ∧ is_empty_slot (f idx text) = false
     ∧ row_text (f idx text) = Some text) →
  Forall (λ c, is_item c = true) (imap f items)
  ∧ Forall (λ c, is_empty_slot c = false) (imap f items)
  ∧ omap row_text (imap f items) = items.
Proof.
  revert f. induction items as [|text items IH]; intros f Hf.
  - by repeat split.
  - rewrite imap_cons. destruct (Hf 0 text) as (Hitem & Hslot & Htext).
    destruct (IH (f ∘ S)) as (IHitem & IHslot & IHtext).
    { intros idx t. apply Hf. }
    split; [by constructor|]. split; [by constructor|].
    change (omap row_text (f 0 text :: imap (f ∘ S) items))
      with (match row_text (f 0 text) with
            | Some t => t :: omap row_text (imap (f ∘ S) items)
            | None => omap row_text (imap (f ∘ S) items)
            end).
    by rewrite Htext, IHtext.
Qed.

Lemma empty_slots_rows (n k : nat) :
  let slots :=
    (λ idx, EmptySlot ("empty-" +:+ pretty idx) (n + idx + 1)) <$> seq 0 k in
  length slots = k
  ∧ Forall (λ c, is_empty_slot c = true) slots
  ∧ Forall (λ c, is_item c = false) slots
  ∧ omap row_text slots = []
  ∧ omap slot_number slots = seq (n + 1) k.
Proof.
  simpl. split; [by rewrite length_fmap, length_seq|].
  assert (∀ start,
            omap slot_number
              ((λ idx, EmptySlot ("empty-" +:+ pretty idx) (n + idx + 1))
                 <$> seq start k)
            = seq (n + start + 1) k) as Hnumbers.
  { induction k as [|k IH]; intros start; simpl; [done|].
    rewrite IH. do 2 f_equal. lia. }
  split; [|split; [|split]].
  - apply Forall_fmap, Forall_forall. by intros idx _.
  - apply Forall_fmap, Forall_forall. by intros idx _.
  - induction (seq 0 k) as [|idx l IH]; by simpl.
  - rewrite Hnumbers. f_equal. lia.
Qed.

(** C7: the list of a section shows every supplied item, once each and in
    order.  The empty slots come after everything else and are numbered on
    from the items.  When the items are at least as many as the configured
    count there is no empty slot; when they are fewer there are exactly
    count minus length empty slots, so items and empty slots together make
    count rows. *)
Theorem renderList_items_and_empty_slots v sec :
  let n := length (data sec) in
  let children := renderList v sec in
  omap row_text children = data sec
  ∧ count_if is_item children = n
  ∧ (∃ top slots,
       children = top ++ slots
       ∧ Forall (λ c, is_empty_slot c = false) top
       ∧ Forall (λ c, is_empty_slot c = true) slots
       ∧ length slots = count sec - n
       ∧ omap slot_number slots = seq (n + 1) (count sec - n))
  ∧ ((count sec ≤ n)%nat → count_if is_empty_slot children = 0)
  ∧ ((n < count sec)%nat →
     count_if is_empty_slot children = count sec - n
     ∧ count_if is_row children = count sec).
Proof.
  intros n children. subst children. unfold renderList.
  replace (Z.to_nat (Z.max 0 (Z.of_nat (count sec) - Z.of_nat (length (data sec)))))
    with (count sec - n) by (subst n; lia).
  fold n.
  destruct (empty_slots_rows n (count sec - n))
    as (Hlen & Hslots & Hnot_items & Htexts & Hnumbers).
  set (slots := (λ idx, EmptySlot ("empty-" +:+ pretty idx) (n + idx + 1))
                  <$> seq 0 (count sec - n)) in *.
  set (top := if bool_decide (n = 0)
              then [NoItemsNotice (title sec)]
              else imap (renderItem v) (data sec)).
  assert (Forall (λ c, is_empty_slot c = false) top
          ∧ omap row_text top = data sec
          ∧ count_if is_item top = n
          ∧ count_if is_row top = n) as (Htop & Htop_text & Htop_items & Htop_rows).
  { subst top. case_bool_decide as Hn.
    - assert (data sec = []) as Hdata by (by apply length_zero_iff_nil).
      rewrite Hn, Hdata. split; [by repeat constructor|]. by repeat split.
    - destruct (imap_items (renderItem v) (data sec) (renderItem_item v))
        as (Hitems & Hno_slot & Htext).
      split; [done|]. split; [done|].
      rewrite !count_if_all, length_imap; [done| |done].
      eapply Forall_impl; [exact Hitems|]. intros c Hc. unfold is_row.
      by rewrite Hc. }
  assert (count_if is_row slots = count sec - n) as Hslot_rows.
  { rewrite count_if_all, Hlen; [done|].
    eapply Forall_impl; [exact Hslots|]. intros c Hc. unfold is_row.
    rewrite Hc. apply orb_true_r. }
  split; [by rewrite omap_app, Htop_text, Htexts, app_nil_r|].
  split; [by rewrite count_if_app, Htop_items, (count_if_none _ _ Hnot_items)|].
  split; [by exists top, slots|].
  rewrite !count_if_app, (count_if_none _ _ Htop), (count_if_all _ _ Hslots).
  rewrite Htop_rows, Hslot_rows, Hlen. split; intros Hcount; lia.
Qed.

(** An empty section shows its notice before the empty slots. *)
Lemma renderList_no_items v sec :
  data sec = [] →
  ∃ slots, renderList v sec = NoItemsNotice (title sec) :: slots
           ∧ length slots = count sec
           ∧ Forall (λ c, is_empty_slot c = true) slots.
Proof.
  intros Hempty. unfold renderList. rewrite Hempty.
  replace (Z.to_nat (Z.max 0 (Z.of_nat (count sec) - Z.of_nat (length []))))
    with (count sec) by (simpl; lia).
  destruct (empty_slots_rows 0 (count sec)) as (Hlen & Hslots & _).
  eexists. split; [reflexivity|]. by split.
Qed.

(** The six sections ask for five, five, five, three, three and three rows. *)
Example sections_counts d : count <$> sections d = [5; 5; 5; 3; 3; 3].
Proof. reflexivity. Qed.

Example two_sounds_rendered :
  renderList plain_view two_sounds
  = [ ItemRow "0-0" 1 "sh" false false; ItemRow "0-1" 2 "ch" false false;
      EmptySlot "empty-0" 3; EmptySlot "empty-1" 4; EmptySlot "empty-2" 5 ].
Proof. vm_compute. reflexivity. Qed.

(** ** The playing indicator *)

(** An utterance spoken for an item marks the item on start and clears the
    mark on end and on error. *)
Lemma speakWord_item_callbacks p text id u e q :
  truthy id = true →
  speak u ∈ speakWord p text (Some id) →
  playingId (dispatch u e q)
  = match e with
    | started => Some id
    | ended | errored => None
    end.
Proof.
  intros Hid Hu. unfold speakWord in Hu. simpl in Hu. rewrite Hid in Hu.
  apply elem_of_cons in Hu as [Hu|Hu]; [discriminate|].
  apply list_elem_of_singleton in Hu. injection Hu as ->. by destruct e.
Qed.

(** The list marks an item as playing when [playingId] is its identifier, so
    two marked items are the same item. *)
Lemma one_item_marked_playing v idx idx' text text' key key' n n' r r' :
  gameMode v = false →
  renderItem v idx text = ItemRow key n text r true →
  renderItem v idx' text' = ItemRow key' n' text' r' true →
  idx = idx'.
Proof.
  unfold renderItem. intros ->. intros [= _ _ _ Hplaying] [= _ _ _ Hplaying'].
  apply bool_decide_eq_true in Hplaying, Hplaying'.
  rewrite Hplaying in Hplaying'. injection Hplaying' as Heq.
  apply (inj (String.append _)) in Heq. simpl in Heq. injection Heq as Heq.
  exact (pretty_nat_inj _ _ Heq).
Qed.

(** * Further properties of the component *)

(** ** Numbers in identifiers *)

Lemma pretty_N_char_digit x : is_digit (pretty_N_char x) = true.
Proof. unfold pretty_N_char. by repeat case_match. Qed.

Lemma pretty_N_go_digits x s :
  all_digits s = true → all_digits (pretty_N_go x s) = true.
Proof.
  revert s. induction (N.lt_wf_0 x) as [x _ IH]; intros s Hs.
  assert (x = 0 ∨ 0 < x)%N as [->|Hpos] by lia.
  - by rewrite pretty_N_go_0.
  - rewrite pretty_N_go_step by done. apply IH.
    + by apply N.div_lt.
    + simpl. by rewrite pretty_N_char_digit.
Qed.

Lemma pretty_N_digits (x : N) : all_digits (pretty x) = true.
Proof.
  unfold pretty, pretty_N. case_decide; [done|]. by apply pretty_N_go_digits.
Qed.

Lemma pretty_nat_digits (n : nat) : all_digits (pretty n) = true.
Proof. apply pretty_N_digits. Qed.

Lemma pretty_N_go_length y s :
  (String.length s ≤ String.length (pretty_N_go y s))%nat.
Proof.
  revert s. induction (N.lt_wf_0 y) as [y _ IH]; intros s.
  assert (y = 0 ∨ 0 < y)%N as [->|Hpos] by lia; [by rewrite pretty_N_go_0|].
  rewrite pretty_N_go_step by done.
  etrans; [|by eapply IH, N.div_lt]. simpl. lia.
Qed.

Lemma pretty_N_nonempty (x : N) : pretty x ≠ "".
Proof.
  unfold pretty, pretty_N. case_decide; [done|].
  assert (0 < x)%N as Hpos by lia.
  rewrite pretty_N_go_step by done. intros Hempty.
  pose proof (pretty_N_go_length (x `div` 10)
                (String (pretty_N_char (x `mod` 10)) "")) as Hlen.
  rewrite Hempty in Hlen. simpl in Hlen. lia.
Qed.

Lemma digits_dash_split a a' b b' :
  all_digits a = true → all_digits a' = true →
  a +:+ String "-" b = a' +:+ String "-" b' → a = a' ∧ b = b'.
Proof.
  revert a'. induction a as [|c a IH]; intros [|c' a'] Ha Ha' Heq;
    simpl in *.
  - by injection Heq as ->.
  - injection Heq as <- _. discriminate Ha'.
  - injection Heq as -> _. discriminate Ha.
  - injection Heq as -> Heq.
    apply andb_true_iff in Ha as [_ Ha], Ha' as [_ Ha'].
    destruct (IH a' Ha Ha' Heq) as [-> ->]. done.
Qed.

Lemma uniqueId_inj tab idx tab' idx' :
  uniqueId tab idx = uniqueId tab' idx' → tab = tab' ∧ idx = idx'.
Proof.
  unfold uniqueId. intros Heq.
  apply digits_dash_split in Heq as [Htab Hidx];
    [|apply pretty_nat_digits..].
  split; by apply (inj pretty).
Qed.

Lemma uniqueId_starts_with_digit tab idx :
  ∃ c rest, uniqueId tab idx = String c rest ∧ is_digit c = true.
Proof.
  unfold uniqueId. pose proof (pretty_nat_digits tab) as Hdigits.
  pose proof (pretty_N_nonempty (N.of_nat tab)) as Hne.
  change (pretty (N.of_nat tab)) with (pretty tab) in Hne.
  destruct (pretty tab) as [|c rest]; [done|].
  simpl in *. apply andb_true_iff in Hdigits as [Hc _]. eauto.
Qed.

(** Two items of the list, on the same tab or not, have different
    identifiers, so revealing or hiding one leaves every other item as it
    was shown. *)
Theorem toggleReveal_only_that_item tab idx tab' idx' (ids : gset string) :
  (tab, idx) ≠ (tab', idx') →
  uniqueId tab idx ≠ uniqueId tab' idx'
  ∧ (uniqueId tab' idx' ∈ toggleReveal (uniqueId tab idx) ids
     ↔ uniqueId tab' idx' ∈ ids).
Proof.
  intros Hne.
  assert (uniqueId tab' idx' ≠ uniqueId tab idx) as Hids.
  { intros Heq. apply uniqueId_inj in Heq as [-> ->]. done. }
  split; [congruence|]. rewrite toggleReveal_elem_of. tauto.
Qed.

Lemma toggleReveal_only_that_item_witness :
  uniqueId 0 1 ≠ uniqueId 1 0
  ∧ (uniqueId 1 0 ∈ toggleReveal (uniqueId 0 1) two_revealed
     ↔ uniqueId 1 0 ∈ two_revealed).
Proof.
  apply (toggleReveal_only_that_item 0 1 1 0 two_revealed). discriminate.
Defined.

(** ** Keys of the list *)

Lemma renderItem_key v idx text :
  child_key (renderItem v idx text) = Some (uniqueId (activeTab v) idx).
Proof. unfold renderItem. by destruct (gameMode v). Qed.

Lemma imap_keys (f : nat → string → Child) (g : nat → string) items k :
  (∀ idx text, child_key (f idx text) = Some (g (k + idx))) →
  omap child_key (imap f items) = g <$> seq k (length items).
Proof.
  revert f k. induction items as [|text items IH]; intros f k Hf; [done|].
  rewrite imap_cons.
  change (omap child_key (f 0 text :: imap (f ∘ S) items))
    with (match child_key (f 0 text) with
          | Some key => key :: omap child_key (imap (f ∘ S) items)
          | None => omap child_key (imap (f ∘ S) items)
          end).
  rewrite Hf, Nat.add_0_r. simpl. f_equal. apply IH.
  intros idx t. simpl. rewrite Hf. do 2 f_equal. lia.
Qed.

(** The keys React is given for the children of the list are pairwise
    different: no two items, no two empty slots, and no item and empty slot
    share a key. *)
Theorem renderList_keys_distinct v sec :
  NoDup (omap child_key (renderList v sec)).
Proof.
  unfold renderList. rewrite omap_app.
  set (slots := Z.to_nat _).
  assert (omap child_key
            ((λ idx, EmptySlot ("empty-" +:+ pretty idx)
                       (length (data sec) + idx + 1)) <$> seq 0 slots)
          = (λ idx, "empty-" +:+ pretty idx) <$> seq 0 slots) as ->.
  { induction (seq 0 slots) as [|idx l IH]; [done|]. simpl. f_equal.
    exact IH. }
  assert (∃ m, omap child_key
                 (if bool_decide (length (data sec) = 0)
                  then [NoItemsNotice (title sec)]
                  else imap (renderItem v) (data sec))
               = uniqueId (activeTab v) <$> seq 0 m) as [m ->].
  { case_bool_decide.
    - by exists 0.
    - exists (length (data sec)). apply imap_keys. intros idx text.
      apply renderItem_key. }
  apply NoDup_app. split; [|split].
  - apply NoDup_fmap_2_strong; [|apply NoDup_seq].
    intros i j _ _ Heq. by apply uniqueId_inj in Heq as [_ ?].
  - intros key Hitem Hslot.
    apply list_elem_of_fmap in Hitem as (i & -> & _).
    apply list_elem_of_fmap in Hslot as (j & Heq & _).
    destruct (uniqueId_starts_with_digit (activeTab v) i)
      as (c & rest & Hid & Hc).
    rewrite Hid in Heq. simpl in Heq. injection Heq as -> _. discriminate Hc.
  - apply NoDup_fmap_2_strong; [|apply NoDup_seq].
    intros i j _ _ Heq. apply (inj (String.append _)) in Heq.
    by apply (inj pretty) in Heq.
Qed.

(** ** Markup stripping *)

Lemma cleanText_app a b : cleanText (a +:+ b) = cleanText a +:+ cleanText b.
Proof.
  induction a as [|c a IH]; simpl; [done|].
  destruct (is_markup c); simpl; by rewrite IH.
Qed.

Lemma cleanText_id text :
  (∀ c, c ∈ markup → c ∉ list_ascii_of_string text) → cleanText text = text.
Proof.
  induction text as [|c text IH]; intros Hfree; simpl; [done|].
  destruct (is_markup c) eqn:Hc.
  - apply is_markup_spec in Hc. destruct (Hfree c Hc). simpl. left.
  - rewrite IH; [done|]. intros c' Hc' Hin. apply (Hfree c' Hc').
    simpl. by right.
Qed.

(** Stripping markup is idempotent, goes through concatenation, and leaves
    a text without any of the seven characters as it is. *)
Theorem cleanText_idempotent_and_additive a b :
  cleanText (cleanText a) = cleanText a
  ∧ cleanText (a +:+ b) = cleanText a +:+ cleanText b
  ∧ ((∀ c, c ∈ markup → c ∉ list_ascii_of_string a) → cleanText a = a).
Proof.
  split; [|split].
  - apply cleanText_id. intros c. apply cleanText_no_markup.
  - apply cleanText_app.
  - apply cleanText_id.
Qed.

(** ** What a check says *)

Lemma forEach_compareSlot_ext s s' l acc :
  draggedTiles s = draggedTiles s' → cipherTiles s = cipherTiles s' →
  forEach (compareSlot s) l acc = forEach (compareSlot s') l acc.
Proof.
  intros Hd Ht. revert acc. induction l as [|i l IH]; intros acc; [done|].
  simpl. unfold compareSlot at 1 3. rewrite Hd, Ht.
  destruct (draggedTiles s' !! i) as [[placed|]|]; [|done..].
  destruct (cipherTiles s' !! i) as [original|]; [|done]. simpl. apply IH.
Qed.

Lemma checkCipherAnswer_cases p s :
  (size (draggedTiles s) ≠ size (hiddenIndices s)
   ∧ checkCipherAnswer p s = Normal (s, []))
  ∨ (size (draggedTiles s) = size (hiddenIndices s)
     ∧ forEach (compareSlot s) (elements (hiddenIndices s)) true
       = Throw TypeError
     ∧ checkCipherAnswer p s = Throw TypeError)
  ∨ (∃ r u,
       size (draggedTiles s) = size (hiddenIndices s)
       ∧ forEach (compareSlot s) (elements (hiddenIndices s)) true
         = Normal (bool_decide (r = correct))
       ∧ checkCipherAnswer p s
         = Normal (setCheckResult (Some r) s, [cancel; speak u])
       ∧ utterance_text u = feedback r (cipherWord s)
       ∧ silent (speak u)).
Proof.
  unfold checkCipherAnswer. case_bool_decide as Hsize; [by left|right].
  assert (size (draggedTiles s) = size (hiddenIndices s)) as Heq.
  { destruct (decide (size (draggedTiles s) = size (hiddenIndices s))); tauto. }
  destruct (forEach _ _ _) as [all_match|[]] eqn:Hwalk; simpl; [right|by left].
  assert (∀ w, cleanText ("Correct! " +:+ w) = "Correct! " +:+ cleanText w)
    as Hcorrect by (intros w; by rewrite cleanText_app).
  unfold speakWord. destruct all_match.
  - exists correct. destruct (cipherWord s) as [word|] eqn:Hword; simpl.
    + destruct (truthy word) eqn:Hw; eexists;
        (split; [done|]); (split; [done|]); (split; [reflexivity|]);
        simpl; rewrite ?Hw; by rewrite ?Hcorrect.
    + eexists. by repeat split.
  - exists incorrect. destruct (cipherWord s) as [word|]; simpl;
      eexists; by repeat split.
Qed.

(** A check that does not return early sets a verdict and speaks one
    utterance, without callbacks: "Correct! " and the word without markup
    when the verdict is correct and the word is not empty, "Try again." in
    every other case, a correct verdict on an empty word included. *)
Theorem check_verdict_and_feedback p s s' cmds :
  checkCipherAnswer p s = Normal (s', cmds) →
  (s' = s ∧ cmds = []
   ∧ size (draggedTiles s) ≠ size (hiddenIndices s))
  ∨ (∃ r u,
       s' = setCheckResult (Some r) s
       ∧ cmds = [cancel; speak u]
       ∧ utterance_text u = feedback r (cipherWord s)
       ∧ silent (speak u)).
Proof.
  intros Hcheck.
  destruct (checkCipherAnswer_cases p s)
    as [[Hsize Heq]|[(_ & _ & Heq)|(r & u & _ & _ & Heq & Htext & Hsilent)]];
    rewrite Heq in Hcheck; [|discriminate|].
  - injection Hcheck as <- <-. by left.
  - injection Hcheck as <- <-. right. by exists r, u.
Qed.

Lemma check_verdict_and_feedback_witness :
  ∃ r u,
    cat_checked = setCheckResult (Some r) cat_solved
    ∧ speakWord quiet "Correct! cat" None = [cancel; speak u]
    ∧ utterance_text u = feedback r (cipherWord cat_solved)
    ∧ silent (speak u).
Proof.
  destruct (check_verdict_and_feedback quiet cat_solved cat_checked
              (speakWord quiet "Correct! cat" None))
    as [(_ & Hcmds & _)|Hverdict].
  - vm_compute. reflexivity.
  - discriminate Hcmds.
  - exact Hverdict.
Defined.

(** A word just loaded has nothing hidden: the Check Answer button is shown
    at once, and the check says correct. *)
Theorem fresh_game_checks_correct parse p word s :
  let fresh := initCipherGame parse word s in
  checkButtonShown fresh = true
  ∧ ∃ u, checkCipherAnswer p fresh
         = Normal (setCheckResult (Some correct) fresh, [cancel; speak u])
         ∧ utterance_text u = feedback correct (Some word).
Proof.
  simpl. split; [done|].
  destruct (checkCipherAnswer_cases p (initCipherGame parse word s))
    as [[Hsize _]|[(_ & Hwalk & _)|(r & u & _ & Hwalk & Heq & Htext & _)]].
  - by destruct Hsize.
  - discriminate Hwalk.
  - simpl in Hwalk. injection Hwalk as Hr.
    symmetry in Hr. apply bool_decide_eq_true in Hr. subst r. by exists u.
Qed.

(** ** The verdict on display *)

Lemma handleSlotClick_same_or_reset now i s :
  handleSlotClick now i s = s ∨ checkResult (handleSlotClick now i s) = None.
Proof.
  unfold handleSlotClick. repeat case_match; simpl; auto.
Qed.

Lemma verdict_current_frame s s' :
  draggedTiles s' = draggedTiles s → cipherTiles s' = cipherTiles s →
  hiddenIndices s' = hiddenIndices s → checkResult s' = checkResult s →
  verdict_current s → verdict_current s'.
Proof.
  intros Hd Ht Hh Hr Hcur r Hres. rewrite Hr in Hres.
  destruct (Hcur r Hres) as [Hsize Hwalk]. rewrite Hd, Hh. split; [done|].
  by rewrite (forEach_compareSlot_ext s' s).
Qed.

Lemma verdict_current_step parse e s :
  verdict_current s → verdict_current (step parse e s).
Proof.
  intros Hcur. destruct e as [word|shuffle i|b|now i|p|]; simpl.
  - by intros r.
  - unfold toggleTileHidden. by case_decide; intros r.
  - by apply (verdict_current_frame s).
  - destruct (handleSlotClick_same_or_reset now i s) as [->|Hnone]; [done|].
    intros r. by rewrite Hnone.
  - destruct (checkCipherAnswer_cases p s)
      as [[_ ->]|[(_ & _ & ->)|(r & u & Hsize & Hwalk & -> & _)]]; [done..|].
    intros r' [= <-]. simpl. split; [done|].
    by rewrite (forEach_compareSlot_ext (setCheckResult (Some r) s) s).
  - by apply (verdict_current_frame s).
Qed.

Lemma reachable_verdict_current parse s :
  reachable parse s → verdict_current s.
Proof.
  induction 1 as [|s e _ IH _]; [by intros r|by apply verdict_current_step].
Qed.

Lemma setCheckResult_same r s :
  checkResult s = r → setCheckResult r s = s.
Proof. destruct s. simpl. by intros ->. Qed.

(** In every state the game reaches, a verdict on display is the verdict a
    check gives now: checking again leaves the state as it is.  No edit of
    the placements keeps an earlier verdict. *)
Theorem displayed_verdict_is_current parse p s r :
  reachable parse s → checkResult s = Some r →
  ∃ u, checkCipherAnswer p s = Normal (s, [cancel; speak u])
       ∧ utterance_text u = feedback r (cipherWord s).
Proof.
  intros Hreach Hres.
  destruct (reachable_verdict_current parse s Hreach r Hres) as [Hsize Hwalk].
  destruct (checkCipherAnswer_cases p s)
    as [[Hne _]|[(_ & Hthrow & _)|(r' & u & _ & Hwalk' & Heq & Htext & _)]].
  - by destruct Hne.
  - rewrite Hwalk in Hthrow. discriminate Hthrow.
  - rewrite Hwalk in Hwalk'. injection Hwalk' as Hr.
    assert (r' = r) as ->.
    { destruct r, r'; try done; revert Hr;
        rewrite ?bool_decide_eq_true_2, ?bool_decide_eq_false_2 by done;
        discriminate. }
    exists u. by rewrite Heq, (setCheckResult_same _ _ Hres).
Qed.

Lemma cat_checked_reachable : reachable letters cat_checked.
Proof.
  unfold cat_checked. apply reachable_step; [|exact I].
  apply reachable_on_tiles_reachable, cat_solved_reachable.
Qed.

Lemma displayed_verdict_is_current_witness :
  ∃ u, checkCipherAnswer quiet cat_checked
       = Normal (cat_checked, [cancel; speak u])
       ∧ utterance_text u = feedback correct (cipherWord cat_checked).
Proof.
  apply (displayed_verdict_is_current letters quiet cat_checked correct).
  - exact cat_checked_reachable.
  - vm_compute. reflexivity.
Defined.

(** ** Checking in a game on the tiles of the word *)

(** In a game in which only positions of the word are hidden, a check never
    ends in an exception; and whenever the Check Answer button is shown, the
    check gives a verdict: correct exactly when every placed text is the
    original text. *)
Theorem check_never_throws_on_tiles parse p s :
  reachable_on_tiles parse s →
  checkCipherAnswer p s ≠ Throw TypeError
  ∧ (checkButtonShown s = true →
     ∃ r u, checkCipherAnswer p s
            = Normal (setCheckResult (Some r) s, [cancel; speak u])
            ∧ (r = correct ↔ texts_agree s)).
Proof.
  intros Hreach.
  pose proof (reachable_on_tiles_well_formed parse s Hreach) as Hwf.
  pose proof (well_formed_covers_size s (wf_placed_hidden s Hwf)) as Hcov.
  destruct (check_well_formed p s Hwf) as [Hnot Hcovers]. split.
  - destruct (decide (size (draggedTiles s) = size (hiddenIndices s)))
      as [Hsize|Hsize].
    + destruct (Hcovers (proj2 Hcov Hsize)) as [cmds [[_ ->]|[_ ->]]];
        discriminate.
    + destruct Hnot as [-> _]; [|discriminate]. rewrite Hcov. tauto.
  - unfold checkButtonShown. intros Hshown.
    apply andb_true_iff in Hshown as [_ Hsize].
    apply bool_decide_eq_true in Hsize.
    destruct (Hcovers (proj2 Hcov Hsize)) as [cmds [[Hagree Heq]|[Hagree Heq]]];
      destruct (checkCipherAnswer_cases p s)
        as [[Hne _]|[(_ & _ & Hthrow)|(r & u & _ & _ & Heq' & _)]];
      try (by destruct Hne); try (rewrite Heq in Hthrow; discriminate Hthrow).
    + exists correct, u. rewrite Heq in Heq'.
      injection Heq' as Hs <-. by rewrite Heq.
    + exists incorrect, u. rewrite Heq in Heq'.
      injection Heq' as Hs <-. rewrite Heq. split; [done|].
      split; [discriminate|tauto].
Qed.

Lemma check_never_throws_on_tiles_witness :
  checkCipherAnswer quiet cat_solved ≠ Throw TypeError
  ∧ (checkButtonShown cat_solved = true →
     ∃ r u, checkCipherAnswer quiet cat_solved
            = Normal (setCheckResult (Some r) cat_solved, [cancel; speak u])
            ∧ (r = correct ↔ texts_agree cat_solved)).
Proof.
  apply (check_never_throws_on_tiles letters quiet cat_solved).
  exact cat_solved_reachable.
Defined.

(** ** Tap to place, tap to take back *)

Lemma find_the_only_entry (bank : list BankItem) b bankItem :
  NoDup (id <$> bank) → bankItem ∈ bank → id bankItem = b →
  List.find (λ x, bool_decide (id x = b)) bank = Some bankItem.
Proof.
  intros Hnodup Hin Hid. induction bank as [|x bank IH];
    [by apply elem_of_nil in Hin|].
  apply NoDup_cons in Hnodup as [Hfresh Hnodup]. simpl.
  apply elem_of_cons in Hin as [<-|Hin].
  - by rewrite bool_decide_eq_true_2.
  - rewrite bool_decide_eq_false_2; [by apply IH|].
    intros Heq. apply Hfresh. rewrite Heq, <- Hid.
    by apply list_elem_of_fmap_2.
Qed.

Lemma handleSlotClick_place now i selected bankItem s :
  i ∈ hiddenIndices s → selectedBankTile s = Some selected →
  truthy selected = true →
  List.find (λ b, bool_decide (id b = selected)) (bankTiles s) = Some bankItem →
  handleSlotClick now i s
  = setCheckResult None
      (setSelectedBankTile None
         (setBankTiles (filter (λ b, id b ≠ selected) (bankTiles s))
            (setDraggedTiles (<[i := tile bankItem]> (draggedTiles s)) s))).
Proof.
  intros Hi Hsel Htruthy Hfind. unfold handleSlotClick.
  by rewrite decide_True, Hsel, Htruthy, Hfind.
Qed.

Lemma handleSlotClick_return now i t s :
  i ∈ hiddenIndices s → truthy_opt (selectedBankTile s) = false →
  draggedTiles s !! i = Some (Some t) →
  handleSlotClick now i s
  = setCheckResult None
      (setBankTiles
         (bankTiles s ++ [ {| id := returnedId now; tile := Some t |} ])
         (setDraggedTiles (delete i (draggedTiles s)) s)).
Proof.
  intros Hi Hsel Hplaced. unfold handleSlotClick. rewrite decide_True by done.
  destruct (selectedBankTile s) as [selected|]; simpl in Hsel.
  - by rewrite Hsel, Hplaced.
  - by rewrite Hplaced.
Qed.

(** Selecting a bank tile and tapping a hidden slot puts that tile on the
    slot, takes its entry, and no other, out of the bank, and clears the
    selection and the verdict.  The bank holds no two entries under one
    identifier here. *)
Theorem select_then_place now i b bankItem s :
  i ∈ hiddenIndices s →
  truthy b = true →
  selectedBankTile s ≠ Some b →
  bankItem ∈ bankTiles s → id bankItem = b →
  NoDup (id <$> bankTiles s) →
  let s' := handleSlotClick now i (handleBankTileClick b s) in
  draggedTiles s' = <[i := tile bankItem]> (draggedTiles s)
  ∧ bankTiles s ≡ₚ bankItem :: bankTiles s'
  ∧ (bankItem ∉ bankTiles s')
  ∧ selectedBankTile s' = None
  ∧ checkResult s' = None
  ∧ hiddenIndices s' = hiddenIndices s.
Proof.
  intros Hi Hb Hsel Hin Hid Hnodup s'. subst s'.
  rewrite (handleSlotClick_place now i b bankItem).
  - simpl. split; [done|]. split; [by apply filter_out_the_selected|].
    split; [|done]. intros Hstill. apply list_elem_of_filter in Hstill. tauto.
  - done.
  - unfold handleBankTileClick. simpl. by rewrite decide_False.
  - done.
  - simpl. by apply find_the_only_entry.
Qed.

Lemma select_then_place_witness :
  let s' := handleSlotClick 0 1 (handleBankTileClick "bank-1" cat_one_hidden) in
  draggedTiles s' = <[1 := tile bank_a]> (draggedTiles cat_one_hidden)
  ∧ bankTiles cat_one_hidden ≡ₚ bank_a :: bankTiles s'
  ∧ (bank_a ∉ bankTiles s')
  ∧ selectedBankTile s' = None
  ∧ checkResult s' = None
  ∧ hiddenIndices s' = hiddenIndices cat_one_hidden.
Proof.
  apply (select_then_place 0 1 "bank-1" bank_a cat_one_hidden).
  - by_evaluation.
  - reflexivity.
  - discriminate.
  - by_evaluation.
  - reflexivity.
  - by_evaluation.
Defined.

(** Taking the tile back by a second tap on the slot makes the placements
    what they were and gives the bank its tiles back; the tile returns under
    a new identifier, made from the clock, at the end of the bank. *)
Theorem place_then_take_back now now' i b bankItem t s :
  i ∈ hiddenIndices s →
  truthy b = true →
  selectedBankTile s ≠ Some b →
  bankItem ∈ bankTiles s → id bankItem = b → tile bankItem = Some t →
  NoDup (id <$> bankTiles s) →
  draggedTiles s !! i = None →
  let s' := handleSlotClick now i (handleBankTileClick b s) in
  let s'' := handleSlotClick now' i s' in
  draggedTiles s'' = draggedTiles s
  ∧ bankTiles s''
    = filter (λ x, id x ≠ b) (bankTiles s)
      ++ [ {| id := returnedId now'; tile := Some t |} ]
  ∧ tile <$> bankTiles s'' ≡ₚ tile <$> bankTiles s
  ∧ hiddenIndices s'' = hiddenIndices s.
Proof.
  intros Hi Hb Hsel Hin Hid Htile Hnodup Hempty s' s''. subst s' s''.
  rewrite (handleSlotClick_place now i b bankItem); cycle 1.
  { done. }
  { unfold handleBankTileClick. simpl. by rewrite decide_False. }
  { done. }
  { simpl. by apply find_the_only_entry. }
  rewrite (handleSlotClick_return now' i t); cycle 1.
  { done. }
  { done. }
  { simpl. by rewrite lookup_insert_eq, Htile. }
  simpl. split; [by rewrite delete_insert_id|]. split; [done|].
  split; [|done].
  rewrite (filter_out_the_selected _ _ _ Hnodup Hin Hid) at 2.
  rewrite fmap_app, fmap_cons. simpl. rewrite Htile.
  by rewrite <- Permutation_cons_append.
Qed.

Lemma place_then_take_back_witness :
  let s' := handleSlotClick 0 1 (handleBankTileClick "bank-1" cat_one_hidden) in
  let s'' := handleSlotClick 7 1 s' in
  draggedTiles s'' = draggedTiles cat_one_hidden
  ∧ bankTiles s''
    = filter (λ x, id x ≠ "bank-1") (bankTiles cat_one_hidden)
      ++ [ {| id := returnedId 7; tile := Some tile_a |} ]
  ∧ tile <$> bankTiles s'' ≡ₚ tile <$> bankTiles cat_one_hidden
  ∧ hiddenIndices s'' = hiddenIndices cat_one_hidden.
Proof.
  apply (place_then_take_back 0 7 1 "bank-1" bank_a tile_a cat_one_hidden).
  - by_evaluation.
  - reflexivity.
  - discriminate.
  - by_evaluation.
  - reflexivity.
  - reflexivity.
  - by_evaluation.
  - vm_compute. reflexivity.
Defined.

(** ** Careful play *)

Lemma bankId_inj i j : bankId i = bankId j → i = j.
Proof.
  unfold bankId. intros Heq. apply (inj (String.append _)) in Heq.
  by apply (inj pretty) in Heq.
Qed.

Lemma bankId_ne_returnedId i now : bankId i ≠ returnedId now.
Proof.
  unfold bankId, returnedId. intros Heq.
  change ("bank-returned-" +:+ pretty now)
    with ("bank-" +:+ "returned-" +:+ pretty now) in Heq.
  apply (inj (String.append _)) in Heq.
  pose proof (pretty_nat_digits i) as Hdigits. rewrite Heq in Hdigits.
  discriminate Hdigits.
Qed.

Lemma returnedId_truthy now : truthy (returnedId now) = true.
Proof. reflexivity. Qed.

Lemma pool_length s :
  length (pool s) = length (bankTiles s) + size (draggedTiles s).
Proof.
  unfold pool. rewrite length_app, !length_fmap. f_equal.
  by rewrite length_map_to_list.
Qed.

Lemma hidden_tiles_length s : length (hidden_tiles s) = size (hiddenIndices s).
Proof. unfold hidden_tiles. by rewrite length_fmap. Qed.

Lemma conserved_frame s s' :
  bankTiles s' = bankTiles s → draggedTiles s' = draggedTiles s →
  hiddenIndices s' = hiddenIndices s → cipherTiles s' = cipherTiles s →
  conserved s → conserved s'.
Proof.
  unfold conserved, pool, hidden_tiles. by intros -> -> -> ->.
Qed.

Lemma tidy_frame s s' :
  bankTiles s' = bankTiles s → draggedTiles s' = draggedTiles s →
  hiddenIndices s' = hiddenIndices s → cipherTiles s' = cipherTiles s →
  tidy s → tidy s'.
Proof.
  intros Hb Hd Hh Ht [Hcons Hids Hhidden]. split.
  - by apply (conserved_frame s).
  - by rewrite Hb.
  - rewrite Hb, Hh. exact Hhidden.
Qed.

Lemma tidy_hide shuffle i s :
  (∀ l, shuffle l ≡ₚ l) → i ∉ hiddenIndices s →
  tidy s → tidy (toggleTileHidden shuffle i s).
Proof.
  intros Hperm Hi [Hcons Hids Hhidden]. split.
  - by apply hide_conserves.
  - rewrite toggleTileHidden_hide by done. simpl.
    rewrite Hperm, fmap_app. simpl. apply NoDup_app. split; [done|].
    split; [|apply NoDup_singleton].
    intros x Hx Hnew. apply list_elem_of_singleton in Hnew. subst x.
    apply Hi. by apply Hhidden.
  - rewrite toggleTileHidden_hide by done. simpl. intros j.
    rewrite Hperm, fmap_app, elem_of_app. simpl.
    intros [Hj|Hj]; [apply elem_of_union_r; by apply Hhidden|].
    apply list_elem_of_singleton, bankId_inj in Hj. subst j.
    apply elem_of_union_l. by apply elem_of_singleton.
Qed.

Lemma filter_ids_sublist (P : BankItem → Prop) `{∀ b, Decision (P b)}
  (bank : list BankItem) :
  id <$> filter P bank `sublist_of` id <$> bank.
Proof. apply fmap_sublist, sublist_filter. Qed.

Lemma tidy_handleSlotClick now i s :
  careful s (SlotClick now i) → tidy s → tidy (handleSlotClick now i s).
Proof.
  intros [Hempty Hfresh] Htidy. pose proof Htidy as [Hcons Hids Hhidden].
  destruct (decide (i ∈ hiddenIndices s)) as [Hi|Hi];
    [|by rewrite handleSlotClick_not_hidden].
  destruct (truthy_opt (selectedBankTile s)) eqn:Hsel.
  - destruct (selectedBankTile s) as [selected|] eqn:Hselected; [|done].
    simpl in Hsel.
    destruct (List.find (λ b, bool_decide (id b = selected)) (bankTiles s))
      as [bankItem|] eqn:Hfind.
    + split.
      * by apply (place_on_empty_slot_conserves now i selected bankItem);
          auto.
      * rewrite (handleSlotClick_place now i selected bankItem) by done.
        simpl. eapply sublist_NoDup; [exact Hids|apply filter_ids_sublist].
      * rewrite (handleSlotClick_place now i selected bankItem) by done.
        simpl. intros j Hj. apply Hhidden.
        eapply elem_of_sublist; [exact Hj|apply filter_ids_sublist].
    + unfold handleSlotClick.
      by rewrite decide_True, Hselected, Hsel, Hfind.
  - destruct (draggedTiles s !! i) as [[t|]|] eqn:Hplaced.
    + split.
      * by apply return_to_bank_conserves.
      * rewrite (handleSlotClick_return now i t) by done. simpl.
        rewrite fmap_app. apply NoDup_app. split; [done|].
        split; [|apply NoDup_singleton].
        intros x Hx Hnew. apply list_elem_of_singleton in Hnew. by subst x.
      * rewrite (handleSlotClick_return now i t) by done. simpl.
        intros j. rewrite fmap_app, elem_of_app. simpl.
        intros [Hj|Hj]; [by apply Hhidden|].
        apply list_elem_of_singleton in Hj. by apply bankId_ne_returnedId in Hj.
    + unfold handleSlotClick. rewrite decide_True by done.
      destruct (selectedBankTile s) as [selected|]; simpl in Hsel;
        by rewrite ?Hsel, Hplaced.
    + unfold handleSlotClick. rewrite decide_True by done.
      destruct (selectedBankTile s) as [selected|]; simpl in Hsel;
        by rewrite ?Hsel, Hplaced.
Qed.

Lemma tidy_step parse e s :
  careful s e → tidy s → tidy (step parse e s).
Proof.
  intros He Htidy. destruct e as [word|shuffle i|b|now i|p|]; simpl.
  - split; simpl.
    + unfold conserved, pool, hidden_tiles. simpl.
      by rewrite map_to_list_empty, elements_empty.
    + apply NoDup_nil_2.
    + intros j Hj. by apply elem_of_nil in Hj.
  - destruct He as [Hperm Hi]. by apply tidy_hide.
  - by apply (tidy_frame s).
  - by apply tidy_handleSlotClick.
  - destruct (checkCipherAnswer_cases p s)
      as [[_ ->]|[(_ & _ & ->)|(r & u & _ & _ & -> & _)]]; [done..|].
    by apply (tidy_frame s).
  - by apply (tidy_frame s).
Qed.

Lemma tidy_initial : tidy initialCipher.
Proof.
  split; simpl.
  - unfold conserved, pool, hidden_tiles. simpl.
    by rewrite map_to_list_empty, elements_empty.
  - apply NoDup_nil_2.
  - intros j Hj. by apply elem_of_nil in Hj.
Qed.

(** In careful play the tiles are conserved: in every state reached, the
    tiles in the bank and on the slots are the tiles of the hidden indices,
    each as often as it is hidden, and no two bank entries share an
    identifier.  The bank is then empty exactly when every hidden slot is
    filled, so the two conditions of the Check Answer button come to one. *)
Theorem careful_play_conserves parse s :
  reachable_by parse careful s →
  conserved s
  ∧ NoDup (id <$> bankTiles s)
  ∧ (bankTiles s = [] ↔ size (draggedTiles s) = size (hiddenIndices s))
  ∧ (checkButtonShown s = true ↔ bankTiles s = []).
Proof.
  intros Hreach.
  assert (tidy s) as [Hcons Hids _].
  { induction Hreach as [|s e _ IH He]; [apply tidy_initial|].
    by apply tidy_step. }
  split; [done|]. split; [done|].
  pose proof (Permutation_length Hcons) as Hlen.
  rewrite pool_length, hidden_tiles_length in Hlen.
  assert (bankTiles s = [] ↔ size (draggedTiles s) = size (hiddenIndices s))
    as Hempty.
  { split.
    - intros Hbank. rewrite Hbank in Hlen. simpl in Hlen. done.
    - intros Hsize. apply length_zero_iff_nil. lia. }
  split; [done|]. unfold checkButtonShown.
  rewrite andb_true_iff, !bool_decide_eq_true, length_zero_iff_nil. tauto.
Qed.

Lemma cat_solved_careful : reachable_by letters careful cat_solved.
Proof.
  unfold cat_solved. repeat (apply reachable_step);
    [apply reachable_initial|exact I| |exact I|].
  - split; [exact keep_order_reorders|]. apply not_elem_of_empty.
  - split; [intros _; vm_compute; reflexivity|by_evaluation].
Qed.

Lemma careful_play_conserves_witness :
  conserved cat_solved
  ∧ NoDup (id <$> bankTiles cat_solved)
  ∧ (bankTiles cat_solved = []
     ↔ size (draggedTiles cat_solved) = size (hiddenIndices cat_solved))
  ∧ (checkButtonShown cat_solved = true ↔ bankTiles cat_solved = []).
Proof.
  apply (careful_play_conserves letters cat_solved). exact cat_solved_careful.
Defined.

(** ** Where tiles go astray *)

Lemma filter_fresh (bank : list BankItem) b :
  b ∉ (id <$> bank) → filter (λ x, id x ≠ b) bank = bank.
Proof.
  induction bank as [|x bank IH]; intros Hfresh; [done|].
  simpl in Hfresh. apply not_elem_of_cons in Hfresh as [Hne Hfresh].
  rewrite filter_cons_True by (simpl; congruence). f_equal. by apply IH.
Qed.

Lemma find_fresh (bank rest : list BankItem) e :
  id e ∉ (id <$> bank) →
  List.find (λ x, bool_decide (id x = id e)) (bank ++ e :: rest) = Some e.
Proof.
  induction bank as [|x bank IH]; intros Hfresh; simpl.
  - by rewrite bool_decide_eq_true_2.
  - simpl in Hfresh. apply not_elem_of_cons in Hfresh as [Hne Hfresh].
    rewrite bool_decide_eq_false_2 by congruence. by apply IH.
Qed.

(** A tile taken back from its slot stays in the bank when its index is
    unhidden: unhiding removes the entries named after the index, and the
    tile has come back under an identifier made from the clock.  The index
    is then shown again while its tile is still offered in the bank. *)
Theorem take_back_then_unhide_strands_the_tile shuffle now i t s :
  i ∈ hiddenIndices s →
  truthy_opt (selectedBankTile s) = false →
  draggedTiles s !! i = Some (Some t) →
  let s' := toggleTileHidden shuffle i (handleSlotClick now i s) in
  hiddenIndices s' = hiddenIndices s ∖ {[ i ]}
  ∧ draggedTiles s' = delete i (draggedTiles s)
  ∧ {| id := returnedId now; tile := Some t |} ∈ bankTiles s'
  ∧ bankTiles s'
    = filter (λ b, id b ≠ bankId i) (bankTiles s)
      ++ [ {| id := returnedId now; tile := Some t |} ].
Proof.
  intros Hi Hsel Hplaced s'. subst s'.
  rewrite (handleSlotClick_return now i t) by done.
  rewrite toggleTileHidden_unhide by done. simpl.
  assert (filter (λ b, id b ≠ bankId i)
            (bankTiles s ++ [ {| id := returnedId now; tile := Some t |} ])
          = filter (λ b, id b ≠ bankId i) (bankTiles s)
            ++ [ {| id := returnedId now; tile := Some t |} ]) as ->.
  { rewrite filter_app. f_equal. rewrite filter_cons_True; [done|].
    simpl. intros Heq. symmetry in Heq. by apply bankId_ne_returnedId in Heq. }
  split; [done|]. split; [by rewrite delete_delete_eq|]. split; [|done].
  apply elem_of_app. right. by apply list_elem_of_singleton.
Qed.

Lemma take_back_then_unhide_strands_the_tile_witness :
  let s' := toggleTileHidden keep_order 1 (handleSlotClick 7 1 cat_solved) in
  hiddenIndices s' = hiddenIndices cat_solved ∖ {[ 1 ]}
  ∧ draggedTiles s' = delete 1 (draggedTiles cat_solved)
  ∧ {| id := returnedId 7; tile := Some tile_a |} ∈ bankTiles s'
  ∧ bankTiles s'
    = filter (λ b, id b ≠ bankId 1) (bankTiles cat_solved)
      ++ [ {| id := returnedId 7; tile := Some tile_a |} ].
Proof.
  apply (take_back_then_unhide_strands_the_tile keep_order 7 1 tile_a cat_solved).
  - by_evaluation.
  - reflexivity.
  - vm_compute. reflexivity.
Defined.

(** Two tiles taken back at one clock reading come into the bank under one
    identifier.  Selecting that identifier and tapping a slot places the
    first of them and removes both from the bank: the second tile is gone. *)
Theorem same_clock_returns_collide now now' i j k ti tj s :
  i ≠ j →
  i ∈ hiddenIndices s → j ∈ hiddenIndices s → k ∈ hiddenIndices s →
  truthy_opt (selectedBankTile s) = false →
  draggedTiles s !! i = Some (Some ti) →
  draggedTiles s !! j = Some (Some tj) →
  returnedId now ∉ (id <$> bankTiles s) →
  let s2 := handleSlotClick now j (handleSlotClick now i s) in
  let s4 :=
    handleSlotClick now' k (handleBankTileClick (returnedId now) s2) in
  bankTiles s2
  = bankTiles s ++ [ {| id := returnedId now; tile := Some ti |};
                     {| id := returnedId now; tile := Some tj |} ]
  ∧ bankTiles s4 = bankTiles s
  ∧ draggedTiles s4 = <[k := Some ti]> (delete j (delete i (draggedTiles s))).
Proof.
  intros Hij Hi Hj Hk Hsel Hti Htj Hfresh s2 s4. subst s4 s2.
  rewrite (handleSlotClick_return now i ti s) by done.
  rewrite (handleSlotClick_return now j tj); cycle 1.
  { done. }
  { done. }
  { simpl. by rewrite lookup_delete_ne. }
  simpl. rewrite <- app_assoc. simpl. split; [done|].
  set (e1 := {| id := returnedId now; tile := Some ti |}).
  set (e2 := {| id := returnedId now; tile := Some tj |}).
  rewrite (handleSlotClick_place now' k (returnedId now) e1); cycle 1.
  { done. }
  { unfold handleBankTileClick. simpl. rewrite decide_False; [done|].
    intros Heq. rewrite Heq in Hsel. discriminate Hsel. }
  { apply returnedId_truthy. }
  { simpl. by apply (find_fresh (bankTiles s) [e2] e1). }
  simpl. split; [|done].
  rewrite filter_app, (filter_fresh _ _ Hfresh).
  rewrite filter_cons_False by (simpl; tauto).
  rewrite filter_cons_False by (simpl; tauto).
  by rewrite filter_nil, app_nil_r.
Qed.

Lemma same_clock_returns_collide_witness :
  let s2 := handleSlotClick 7 1 (handleSlotClick 7 0 cat_both_placed) in
  let s4 := handleSlotClick 9 0 (handleBankTileClick (returnedId 7) s2) in
  bankTiles s2
  = bankTiles cat_both_placed
    ++ [ {| id := returnedId 7; tile := Some tile_c |};
         {| id := returnedId 7; tile := Some tile_a |} ]
  ∧ bankTiles s4 = bankTiles cat_both_placed
  ∧ draggedTiles s4
    = <[0 := Some tile_c]> (delete 1 (delete 0 (draggedTiles cat_both_placed))).
Proof.
  apply (same_clock_returns_collide 7 9 0 1 0 tile_c tile_a cat_both_placed).
  - discriminate.
  - by_evaluation.
  - by_evaluation.
  - by_evaluation.
  - reflexivity.
  - vm_compute. reflexivity.
  - vm_compute. reflexivity.
  - by_evaluation.
Defined.

(** Loading a word does not clear the bank selection.  A selection left
    from the game before that names the entry of index [i] is used by the
    first tap on slot [i] once tile [i] is hidden: the tile is placed without
    having been selected in this game. *)
Theorem selection_survives_loading parse shuffle now word i s :
  (∀ l, shuffle l ≡ₚ l) →
  selectedBankTile s = Some (bankId i) →
  let loaded := initCipherGame parse word s in
  let s' := handleSlotClick now i (toggleTileHidden shuffle i loaded) in
  selectedBankTile loaded = Some (bankId i)
  ∧ draggedTiles s' = {[ i := parse word !! i ]}
  ∧ bankTiles s' = []
  ∧ selectedBankTile s' = None.
Proof.
  intros Hperm Hsel loaded s'. subst s' loaded.
  split; [done|].
  rewrite toggleTileHidden_hide by (simpl; apply not_elem_of_empty).
  simpl.
  assert (shuffle [ {| id := bankId i; tile := parse word !! i |} ]
          = [ {| id := bankId i; tile := parse word !! i |} ]) as Hone.
  { apply Permutation_singleton_r, Hperm. }
  rewrite (handleSlotClick_place now i (bankId i)
             {| id := bankId i; tile := parse word !! i |}); cycle 1.
  { simpl. set_solver. }
  { done. }
  { reflexivity. }
  { simpl. rewrite Hone. simpl. by rewrite bool_decide_eq_true_2. }
  simpl. rewrite Hone. split; [done|]. split; [|done].
  rewrite filter_cons_False by (simpl; tauto). done.
Qed.

Lemma selection_survives_loading_witness :
  let loaded := initCipherGame letters "cat" left_selected in
  let s' := handleSlotClick 0 1 (toggleTileHidden keep_order 1 loaded) in
  selectedBankTile loaded = Some (bankId 1)
  ∧ draggedTiles s' = {[ 1 := letters "cat" !! 1 ]}
  ∧ bankTiles s' = []
  ∧ selectedBankTile s' = None.
Proof.
  apply (selection_survives_loading letters keep_order 0 "cat" 1 left_selected).
  - exact keep_order_reorders.
  - reflexivity.
Defined.

(** ** Annotation overlay *)

Section DrawingFacts.
Variable number : Type.
Variable minus : number → number → number.
Variable zero : number.

Local Abbreviation run := (draw_run number minus zero).
Local Abbreviation one := (draw_step number minus zero).

Lemma draw_run_cons canvas e es d d1 c1 d2 c2 :
  one canvas e d = Normal (d1, c1) →
  run canvas es d1 = Normal (d2, c2) →
  run canvas (e :: es) d = Normal (d2, c1 ++ c2).
Proof. intros Hone Hrest. simpl. by rewrite Hone; simpl; rewrite Hrest. Qed.

Lemma draw_run_cons_inv canvas e es d d2 cmds :
  run canvas (e :: es) d = Normal (d2, cmds) →
  ∃ d1 c1 c2,
    one canvas e d = Normal (d1, c1)
    ∧ run canvas es d1 = Normal (d2, c2)
    ∧ cmds = c1 ++ c2.
Proof.
  simpl. destruct (one canvas e d) as [[d1 c1]|]; simpl; [|discriminate].
  destruct (run canvas es d1) as [[d2' c2]|] eqn:Hrest; simpl; [|discriminate].
  intros [= <- <-]. by exists d1, c1, c2.
Qed.

Lemma draw_run_app canvas es es' d d1 c1 d2 c2 :
  run canvas es d = Normal (d1, c1) →
  run canvas es' d1 = Normal (d2, c2) →
  run canvas (es ++ es') d = Normal (d2, c1 ++ c2).
Proof.
  revert d c1. induction es as [|e es IH]; intros d c1 Hes Hes'.
  - injection Hes as <- <-. done.
  - apply draw_run_cons_inv in Hes as (d0 & c0 & c0' & Hone & Hrest & ->).
    rewrite <- app_assoc. simpl app.
    eapply draw_run_cons; [exact Hone|]. by eapply IH.
Qed.

(** With the cursor tool picked, no pointer event puts ink on the canvas or
    ends in an exception, whatever the events carry, and drawing cannot
    begin. *)
Theorem cursor_draws_nothing canvas es d :
  tool d = cursor →
  Forall (λ e, ∀ t, e ≠ PickTool t) es →
  ∃ d' cmds,
    run canvas es d = Normal (d', cmds)
    ∧ tool d' = cursor
    ∧ (isDrawing d = false → isDrawing d' = false)
    ∧ Forall (λ c, is_ink c = false ∧ begins_path c = false) cmds.
Proof.
  intros Htool Hes. revert d Htool.
  induction Hes as [|e es He _ IH]; intros d Htool.
  - by exists d, [].
  - assert (∃ d1 c1, one canvas e d = Normal (d1, c1) ∧ tool d1 = cursor
              ∧ (isDrawing d = false → isDrawing d1 = false)
              ∧ Forall (λ c, is_ink c = false ∧ begins_path c = false) c1)
      as (d1 & c1 & Hone & Htool1 & Hrest1 & Hc1).
    { destruct e as [pe|pe| |t|]; simpl.
      - unfold startDrawing. rewrite decide_True by done. by exists d, [].
      - unfold draw. rewrite (bool_decide_eq_true_2 _ Htool), orb_true_r.
        by exists d, [].
      - by exists (stopDrawing d), [].
      - by destruct (He t).
      - exists d, (clearCanvas number canvas). repeat split; try done.
        unfold clearCanvas. destruct canvas as [c|]; [|done].
        destruct (context2d c); by repeat constructor. }
    destruct (IH d1 Htool1) as (d2 & c2 & Hrun & Htool2 & Hrest2 & Hc2).
    exists d2, (c1 ++ c2). split; [by eapply draw_run_cons|].
    split; [done|]. split; [auto|]. by apply Forall_app.
Qed.

End DrawingFacts.

Lemma cursor_draws_nothing_witness :
  ∃ d' cmds,
    draw_run Z Z.sub 0%Z (Some sheet)
      [ PointerDown (TouchEvent []); PointerMove (mouse_at (3, 4)%Z); PointerUp ]
      {| tool := cursor; isDrawing := false |}
    = Normal (d', cmds)
    ∧ tool d' = cursor
    ∧ (false = false → isDrawing d' = false)
    ∧ Forall (λ c, is_ink c = false ∧ begins_path c = false) cmds.
Proof.
  apply (cursor_draws_nothing Z Z.sub 0%Z (Some sheet)
           [ PointerDown (TouchEvent []); PointerMove (mouse_at (3, 4)%Z);
             PointerUp ]
           {| tool := cursor; isDrawing := false |}).
  - reflexivity.
  - repeat constructor; discriminate.
Defined.

Section StrokeFacts.
Variable number : Type.
Variable minus : number → number → number.
Variable zero : number.

Local Abbreviation run := (draw_run number minus zero).
Local Abbreviation one := (draw_step number minus zero).

Lemma moves_while_drawing c d ps :
  context2d c = true → isDrawing d = true → tool d ≠ cursor →
  run (Some c) (PointerMove ∘ mouse_at <$> ps) d
  = Normal (d, concat (segment number minus c <$> ps)).
Proof.
  intros Hctx Hdrawing Htool. induction ps as [|p ps IH]; [done|].
  rewrite fmap_cons.
  eapply (draw_run_cons number minus zero); [|exact IH].
  simpl. unfold draw. rewrite Hdrawing, bool_decide_eq_false_2 by done.
  simpl. by rewrite Hctx.
Qed.

(** One stroke with the mouse, pen in hand: pressing begins a path at the
    point pressed, taken relative to the canvas, with width 4, round caps
    and joins and the colour of the pen; every move adds a line to the point
    moved to and strokes the path; releasing ends the drawing. *)
Theorem mouse_stroke_ink c d p0 ps :
  context2d c = true → tool d ≠ cursor →
  run (Some c) (mouse_stroke p0 ps) d
  = Normal
      (setIsDrawing false d,
       [ beginPath;
         moveTo (minus p0.1 (rect_left c)) (minus p0.2 (rect_top c));
         setLineWidth 4; setLineCap "round"; setLineJoin "round";
         setStrokeStyle
           (match tool d with pen_blue => "#4338ca" | _ => "#b91c1c" end) ]
       ++ concat (segment number minus c <$> ps)).
Proof.
  intros Hctx Htool. unfold mouse_stroke.
  replace (match tool d with pen_blue => "#4338ca" | _ => "#b91c1c" end)
    with (if decide (tool d = pen_blue) then "#4338ca" else "#b91c1c")
    by (by destruct (tool d)).
  replace (concat (segment number minus c <$> ps))
    with (concat (segment number minus c <$> ps) ++ [])
    by apply app_nil_r.
  eapply (draw_run_cons number minus zero).
  { simpl. unfold startDrawing. rewrite decide_False by done. simpl.
    rewrite Hctx. reflexivity. }
  eapply (draw_run_app number minus zero).
  - by apply moves_while_drawing.
  - reflexivity.
Qed.

Lemma ink_follows_path_mono (cmds : list (CanvasCommand number)) :
  ink_follows_path false cmds = true → ink_follows_path true cmds = true.
Proof.
  induction cmds as [|c cmds IH]; [done|]. destruct c; simpl; auto.
  all: discriminate.
Qed.

Lemma ink_follows_path_app begun (c1 c2 : list (CanvasCommand number)) :
  ink_follows_path begun c1 = true →
  ink_follows_path (begun || existsb begins_path c1) c2 = true →
  ink_follows_path begun (c1 ++ c2) = true.
Proof.
  revert begun. induction c1 as [|c c1 IH]; intros begun H1 H2.
  - simpl in *. by rewrite orb_false_r in H2.
  - destruct c; simpl in *; try (apply IH; [done|]; exact H2).
    + apply IH; [done|]. by rewrite orb_true_r in H2.
    + apply andb_true_iff in H1 as [-> H1]. simpl. by apply IH.
    + apply andb_true_iff in H1 as [-> H1]. simpl. by apply IH.
Qed.

Lemma draw_step_ink canvas e d d1 c1 begun :
  one canvas e d = Normal (d1, c1) →
  (isDrawing d = true → begun = true) →
  ink_follows_path begun c1 = true
  ∧ (isDrawing d1 = true → begun || existsb begins_path c1 = true
                           ∨ c1 = [] ∧ on_context number canvas [stroke] = []).
Proof.
  intros Hone Hbegun. destruct e as [pe|pe| |t|]; simpl in Hone.
  - unfold startDrawing in Hone. case_decide.
    + injection Hone as <- <-. split; [done|]. intros Hd. left.
      by rewrite (Hbegun Hd).
    + destruct (getCoordinates _ _ _ _ _) as [[x y]|]; [|discriminate].
      simpl in Hone. injection Hone as <- <-.
      unfold on_context. destruct canvas as [c|]; [destruct (context2d c)|].
      * split; [done|]. intros _. left. simpl. apply orb_true_r.
      * split; [done|]. intros _. by right.
      * split; [done|]. intros _. by right.
  - unfold draw in Hone.
    destruct (negb (isDrawing d) || bool_decide (tool d = cursor)) eqn:Hskip.
    + injection Hone as <- <-. split; [done|]. intros Hd. left.
      by rewrite (Hbegun Hd).
    + apply orb_false_iff in Hskip as [Hd _]. apply negb_false_iff in Hd.
      destruct (getCoordinates _ _ _ _ _) as [[x y]|]; [|discriminate].
      simpl in Hone. injection Hone as <- <-. rewrite (Hbegun Hd).
      split; [|by left].
      unfold on_context. destruct canvas as [c|]; [destruct (context2d c)|];
        done.
  - injection Hone as <- <-. split; [done|]. intros Hd. discriminate Hd.
  - injection Hone as <- <-. split; [done|]. intros Hd. left.
    by rewrite (Hbegun Hd).
  - injection Hone as <- <-. split.
    + unfold clearCanvas. destruct canvas as [c|]; [destruct (context2d c)|];
        done.
    + intros Hd. left. by rewrite (Hbegun Hd).
Qed.

Lemma draw_run_no_context canvas es d d' cmds :
  on_context number canvas [stroke] = [] →
  run canvas es d = Normal (d', cmds) → cmds = [].
Proof.
  intros Hnone. assert (∀ l, on_context number canvas l = []) as Hall.
  { intros l. unfold on_context in *. destruct canvas as [c|]; [|done].
    by destruct (context2d c). }
  assert (clearCanvas number canvas = []) as Hclear.
  { unfold clearCanvas. unfold on_context in Hnone.
    destruct canvas as [c|]; [|done]. by destruct (context2d c). }
  revert d cmds. induction es as [|e es IH]; intros d cmds Hrun.
  - by injection Hrun as _ <-.
  - apply draw_run_cons_inv in Hrun as (d1 & c1 & c2 & Hone & Hrest & ->).
    rewrite (IH _ _ Hrest), app_nil_r.
    destruct e as [pe|pe| |t|]; simpl in Hone.
    + unfold startDrawing in Hone. case_decide; [by injection Hone as _ <-|].
      destruct (getCoordinates _ _ _ _ _) as [[x y]|]; [|discriminate].
      simpl in Hone. injection Hone as _ <-. apply Hall.
    + unfold draw in Hone.
      destruct (negb (isDrawing d) || bool_decide (tool d = cursor));
        [by injection Hone as _ <-|].
      destruct (getCoordinates _ _ _ _ _) as [[x y]|]; [|discriminate].
      simpl in Hone. injection Hone as _ <-. apply Hall.
    + by injection Hone as _ <-.
    + by injection Hone as _ <-.
    + injection Hone as _ <-. exact Hclear.
Qed.

Lemma draw_run_ink canvas es d d' cmds begun :
  run canvas es d = Normal (d', cmds) →
  (isDrawing d = true → begun = true) →
  ink_follows_path begun cmds = true.
Proof.
  revert d cmds begun. induction es as [|e es IH]; intros d cmds begun Hrun Hb.
  - by injection Hrun as _ <-.
  - apply draw_run_cons_inv in Hrun as (d1 & c1 & c2 & Hone & Hrest & ->).
    destruct (draw_step_ink canvas e d d1 c1 begun Hone Hb) as [Hc1 Hnext].
    apply ink_follows_path_app; [done|].
    destruct (isDrawing d1) eqn:Hd1.
    + destruct (Hnext eq_refl) as [Hbegun|[-> Hnone]].
      * eapply IH; [exact Hrest|]. done.
      * by rewrite (draw_run_no_context canvas es d1 d' c2 Hnone Hrest).
    + eapply IH; [exact Hrest|]. intros Hd. congruence.
Qed.

(** Whatever the pointer does and whichever tools are picked on the way, the
    ink of a run that starts at rest lies within paths: every [lineTo] and
    every [stroke] the context receives comes after a [beginPath]. *)
Theorem ink_only_within_a_path canvas es d d' cmds :
  isDrawing d = false →
  run canvas es d = Normal (d', cmds) →
  ink_follows_path false cmds = true.
Proof.
  intros Hrest Hrun. eapply draw_run_ink; [exact Hrun|].
  by rewrite Hrest.
Qed.

End StrokeFacts.

Lemma mouse_stroke_ink_witness :
  draw_run Z Z.sub 0%Z (Some sheet)
    (mouse_stroke (15, 25)%Z [ (16, 27)%Z; (18, 30)%Z ]) blue_pen
  = Normal
      (setIsDrawing false blue_pen,
       [ beginPath; moveTo (15 - 10)%Z (25 - 20)%Z;
         setLineWidth 4; setLineCap "round"; setLineJoin "round";
         setStrokeStyle "#4338ca" ]
       ++ concat (segment Z Z.sub sheet <$> [ (16, 27)%Z; (18, 30)%Z ])).
Proof.
  apply (mouse_stroke_ink Z Z.sub 0%Z sheet blue_pen (15, 25)%Z
           [ (16, 27)%Z; (18, 30)%Z ]).
  - reflexivity.
  - discriminate.
Defined.

Lemma ink_only_within_a_path_witness :
  ink_follows_path false
    ([ beginPath; moveTo (15 - 10)%Z (25 - 20)%Z;
       setLineWidth 4; setLineCap "round"; setLineJoin "round";
       setStrokeStyle "#4338ca" ]
     ++ concat (segment Z Z.sub sheet <$> [ (16, 27)%Z; (18, 30)%Z ]))
  = true.
Proof.
  apply (ink_only_within_a_path Z Z.sub 0%Z (Some sheet)
           (mouse_stroke (15, 25)%Z [ (16, 27)%Z; (18, 30)%Z ]) blue_pen
           (setIsDrawing false blue_pen)).
  - reflexivity.
  - vm_compute. reflexivity.
Defined.

(** ** Error boundary *)

(** Before any error the boundary renders its children; after errors it
    renders the failure screen with the text of the error caught last, and
    nothing brings the children back. *)
Theorem boundary_shows_last_error (Error Children : Type)
  (toString : Error → string) (children : Children) earlier (e : Error) :
  ErrorBoundary.render Error toString Children
    (ErrorBoundary.initialState Error) children
  = ErrorBoundary.ChildrenShown children
  ∧ ErrorBoundary.render Error toString Children
      (ErrorBoundary.after_errors Error (earlier ++ [e])) children
    = ErrorBoundary.FailureScreen (Some (toString e))
  ∧ ErrorBoundary.hasError
      (ErrorBoundary.after_errors Error (earlier ++ [e])) = true.
Proof.
  unfold ErrorBoundary.after_errors. rewrite foldl_app. by simpl.
Qed.

(** ** Voices *)

Lemma loadVoices_selected sortVoices available p :
  truthy (selectedVoiceURI p) = true →
  loadVoices sortVoices available p = setVoices (sortVoices available) p.
Proof. intros Hsel. unfold loadVoices. by rewrite Hsel. Qed.

(** [loadVoices] never replaces a selection that has been made, whether or
    not the selected voice is among the voices loaded; and running it again
    on the same voices, as the effect does once it has set the selection,
    changes nothing. *)
Theorem loadVoices_keeps_selection_and_settles sortVoices available p :
  (truthy (selectedVoiceURI p) = true →
   selectedVoiceURI (loadVoices sortVoices available p) = selectedVoiceURI p)
  ∧ loadVoices sortVoices available (loadVoices sortVoices available p)
    = loadVoices sortVoices available p.
Proof.
  split; [intros Hsel; by rewrite loadVoices_selected|].
  destruct (truthy (selectedVoiceURI p)) eqn:Hsel.
  { rewrite (loadVoices_selected _ _ p Hsel).
    by rewrite loadVoices_selected. }
  destruct (bool_decide (0 < length (sortVoices available))) eqn:Hlen.
  - destruct (bestVoice (sortVoices available)) as [best|] eqn:Hbest.
    + assert (loadVoices sortVoices available p
              = setSelectedVoiceURI (voiceURI best)
                  (setVoices (sortVoices available) p)) as ->.
      { unfold loadVoices. by rewrite Hsel, Hlen, Hbest. }
      unfold loadVoices. simpl.
      destruct (truthy (voiceURI best)); simpl; [done|].
      by rewrite Hlen, Hbest.
    + assert (loadVoices sortVoices available p
              = setVoices (sortVoices available) p) as ->.
      { unfold loadVoices. by rewrite Hsel, Hlen, Hbest. }
      unfold loadVoices. simpl. by rewrite Hsel, Hlen, Hbest.
  - assert (loadVoices sortVoices available p
            = setVoices (sortVoices available) p) as ->.
    { unfold loadVoices. by rewrite Hsel, Hlen. }
    unfold loadVoices. simpl. by rewrite Hsel, Hlen.
Qed.

Lemma speakWord_voice_cases p text id :
  ∃ u, speakWord p text id = [cancel; speak u]
    ∧ match voice u with
      | Some v =>
          v ∈ voices p ∧ voiceURI v = selectedVoiceURI p
          ∧ selectedVoiceURI p ≠ ""
      | None =>
          selectedVoiceURI p = ""
          ∨ ∀ v, v ∈ voices p → voiceURI v ≠ selectedVoiceURI p
      end.
Proof.
  eexists. split; [reflexivity|]. simpl.
  destruct (truthy (selectedVoiceURI p)) eqn:Hsel.
  - destruct (List.find _ _) as [v|] eqn:Hfind.
    + apply find_elem_of in Hfind as [Hin Huri].
      apply bool_decide_eq_true in Huri. repeat split; [done..|].
      intros Hempty. rewrite Hempty in Hsel. discriminate Hsel.
    + right. intros v Hv Huri.
      pose proof (find_none_elem_of _ _ Hfind v Hv) as Hno. simpl in Hno.
      by apply bool_decide_eq_false in Hno.
  - left. by destruct (selectedVoiceURI p).
Qed.

(** The voice of an utterance is a loaded voice whose URI is the selected
    one; with no selection, or with a selection that no loaded voice has,
    the utterance carries no voice and the engine uses its own. *)
Theorem speakWord_voice p text id :
  ∃ u, speakWord p text id = [cancel; speak u]
    ∧ match voice u with
      | Some v =>
          v ∈ voices p ∧ voiceURI v = selectedVoiceURI p
          ∧ selectedVoiceURI p ≠ ""
      | None =>
          selectedVoiceURI p = ""
          ∨ ∀ v, v ∈ voices p → voiceURI v ≠ selectedVoiceURI p
      end.
Proof. apply speakWord_voice_cases. Qed.

(** After the default selection the next utterance is spoken with a voice of
    the list that has the selected URI, when that URI is not empty. *)
Theorem default_voice_is_spoken_with sortVoices available p text id :
  (∀ l, sortVoices l ≡ₚ l) →
  available ≠ [] →
  selectedVoiceURI p = "" →
  let p' := loadVoices sortVoices available p in
  selectedVoiceURI p' ≠ "" →
  ∃ u v, speakWord p' text id = [cancel; speak u]
       ∧ voice u = Some v
       ∧ v ∈ available
       ∧ voiceURI v = selectedVoiceURI p'.
Proof.
  intros Hperm Hne Hsel p' Hchosen.
  assert (∃ best, best ∈ sortVoices available
                  ∧ selectedVoiceURI p' = voiceURI best
                  ∧ voices p' = sortVoices available)
    as (best & Hbest & Huri & Hvoices).
  { subst p'. unfold loadVoices. rewrite Hsel. simpl.
    assert (sortVoices available ≠ []) as Hne'.
    { intros Hnil. apply Hne, Permutation_nil_r. by rewrite <- Hnil, Hperm. }
    rewrite bool_decide_eq_true_2
      by (destruct (sortVoices available); [done|simpl; lia]).
    destruct (bestVoice_preferred _ Hne') as (best & -> & Hin & _).
    by exists best. }
  destruct (speakWord_voice_cases p' text id) as (u & Hspeak & Hvoice).
  exists u. destruct (voice u) as [v|].
  - destruct Hvoice as (Hin & Hv & _). exists v. repeat split; try done.
    rewrite Hvoices, Hperm in Hin. done.
  - destruct Hvoice as [Hempty|Hnone]; [done|].
    destruct (Hnone best); [by rewrite Hvoices|done].
Qed.

Lemma default_voice_is_spoken_with_witness :
  ∃ u v, speakWord (loadVoices reverse [samantha; sonia] quiet) "cat" None
         = [cancel; speak u]
       ∧ voice u = Some v
       ∧ v ∈ [samantha; sonia]
       ∧ voiceURI v
         = selectedVoiceURI (loadVoices reverse [samantha; sonia] quiet).
Proof.
  apply (default_voice_is_spoken_with reverse [samantha; sonia] quiet "cat" None).
  - intros l. apply reverse_Permutation.
  - discriminate.
  - reflexivity.
  - vm_compute. discriminate.
Defined.
